(** * Exam session of index.tsx: shuffling, navigation, scoring, ingestion

    A shallow embedding of the exam logic of [src/index.tsx] (the React
    component [ExamApp] and the helper [shuffleArray]), with the properties
    of the specification stated and settled against it.

    Conventions of the embedding:
    - the component state [AppState] is an explicit record, and every
      [setState(prev => ...)] updater is a function on that record;
    - [Math.random] is an oracle [rnd : nat -> nat] read through a call
      counter that is threaded through every function that draws;
    - [userAnswers : Record<number, string>] is a [gmap nat string];
    - an awaited call to a collaborator (PDF text extraction, question
      generation) is a task in flight; it settles at a later event, which
      carries what the collaborator answered;
    - a render that throws unmounts the component (there is no error
      boundary), after which every [setState] is dropped. *)

From Stdlib Require Import ZArith QArith Qround.
From stdpp Require Import gmap strings list fin_maps pretty.

Local Open Scope nat_scope.

(** ** Data model (index.tsx, lines 23-38) *)

Record Question := mkQuestion {
  id : Z;
  text : string;
  options : list string;
  correctAnswer : string;
  explanation : option string
}.

Inductive Step := upload | parsing | exam | results.

Record AppState := mkAppState {
  step : Step;
  questions : list Question;
  currentQuestionIndex : nat;
  userAnswers : gmap nat string;
  isLoading : bool;
  error : option string
}.

#[global] Instance Step_eq_dec : EqDecision Step.
Proof. solve_decision. Defined.

(** ** shuffleArray (index.tsx, lines 41-48) *)

(** [Math.floor(Math.random() * n)] at the [k]-th call of [Math.random]:
    since [Math.random()] lies in [0, 1), the result is one of [0 .. n-1],
    and each of them is a possible outcome. *)
Definition random_below (rnd : nat -> nat) (k n : nat) : nat := rnd k mod n.

(** [[a[i], a[j]] = [a[j], a[i]]]: both reads happen before both writes.
    The loop only ever uses indices inside the array ([swap_reads_defined]
    and [shuffle_loop_length] below); outside it the model leaves the array
    as it is. *)
Definition swap {T} (i j : nat) (a : list T) : list T :=
  match a !! i, a !! j with
  | Some x, Some y => <[j := x]> (<[i := y]> a)
  | _, _ => a
  end.

(** [for (let i = newArray.length - 1; i > 0; i--) { j = ...; swap }],
    entered with the current value of [i]. *)
Fixpoint shuffle_loop {T} (rnd : nat -> nat) (i : nat) (newArray : list T) (k : nat)
  : list T * nat :=
  match i with
  | 0 => (newArray, k)
  | S i' =>
      let j := random_below rnd k (i + 1) in
      shuffle_loop rnd i' (swap i j newArray) (S k)
  end.

Definition shuffleArray {T} (rnd : nat -> nat) (array : list T) (k : nat) : list T * nat :=
  let newArray := array in
  shuffle_loop rnd (length newArray - 1) newArray k.

(** The same function over a store of arrays, to speak about the input
    array object: [const newArray = [...array]] allocates a copy, and every
    write of the loop goes to that copy. *)
Definition swap_ref {T} (a i j : nat) (h : gmap nat (list T)) : gmap nat (list T) :=
  match h !! a with
  | Some l => <[a := swap i j l]> h
  | None => h
  end.

Fixpoint shuffle_loop_ref {T} (rnd : nat -> nat) (i : nat) (newArray : nat)
    (h : gmap nat (list T)) (k : nat) : gmap nat (list T) * nat :=
  match i with
  | 0 => (h, k)
  | S i' =>
      let j := random_below rnd k (i + 1) in
      shuffle_loop_ref rnd i' newArray (swap_ref newArray i j h) (S k)
  end.

Definition shuffleArray_ref {T} (rnd : nat -> nat) (array : nat)
    (h : gmap nat (list T)) (k : nat) : option (nat * gmap nat (list T) * nat) :=
  match h !! array with
  | None => None
  | Some l =>
      let newArray := fresh (dom h) in
      let h1 := <[newArray := l]> h in
      let '(h2, k') := shuffle_loop_ref rnd (length l - 1) newArray h1 k in
      Some (newArray, h2, k')
  end.

(** ** Session operations (index.tsx, lines 50-58 and 159-221)

    Each handler is the updater it passes to [setState], applied to the
    state of the render in which the handler was created. *)

Definition initialState : AppState :=
  {| step := upload; questions := []; currentQuestionIndex := 0;
     userAnswers := ∅; isLoading := false; error := None |}.

Definition selectAnswer (answer : string) (prev : AppState) : AppState :=
  {| step := step prev;
     questions := questions prev;
     currentQuestionIndex := currentQuestionIndex prev;
     userAnswers := <[currentQuestionIndex prev := answer]> (userAnswers prev);
     isLoading := isLoading prev;
     error := error prev |}.

(** [questions.length - 1] is [-1] for an empty array, hence the test in [Z]. *)
Definition nextQuestion (state : AppState) : AppState :=
  if (Z.of_nat (currentQuestionIndex state)
        <? Z.of_nat (length (questions state)) - 1)%Z
  then
    {| step := step state;
       questions := questions state;
       currentQuestionIndex := currentQuestionIndex state + 1;
       userAnswers := userAnswers state;
       isLoading := isLoading state;
       error := error state |}
  else
    {| step := results;
       questions := questions state;
       currentQuestionIndex := currentQuestionIndex state;
       userAnswers := userAnswers state;
       isLoading := isLoading state;
       error := error state |}.

Definition prevQuestion (state : AppState) : AppState :=
  if 0 <? currentQuestionIndex state
  then
    {| step := step state;
       questions := questions state;
       currentQuestionIndex := currentQuestionIndex state - 1;
       userAnswers := userAnswers state;
       isLoading := isLoading state;
       error := error state |}
  else state.

Definition restartFull : AppState :=
  {| step := upload; questions := []; currentQuestionIndex := 0;
     userAnswers := ∅; isLoading := false; error := None |}.

(** [qs.map(q => ({ ...q, options: shuffleArray(q.options) }))], the draws
    taken in the order of the array. *)
Fixpoint shuffleOptions (rnd : nat -> nat) (qs : list Question) (k : nat)
  : list Question * nat :=
  match qs with
  | [] => ([], k)
  | q :: rest =>
      let '(opts, k1) := shuffleArray rnd (options q) k in
      let '(rest', k2) := shuffleOptions rnd rest k1 in
      ({| id := id q; text := text q; options := opts;
          correctAnswer := correctAnswer q; explanation := explanation q |}
         :: rest', k2)
  end.

(** [shuffleArray(qs).map(q => ({ ...q, options: shuffleArray(q.options) }))]
    (lines 119-122 and 193-196). *)
Definition randomize (rnd : nat -> nat) (qs : list Question) (k : nat)
  : list Question * nat :=
  let '(shuffled, k1) := shuffleArray rnd qs k in
  shuffleOptions rnd shuffled k1.

(** [q'] is [q] with its options in some order. *)
Definition sameUpToOptions (q q' : Question) : Prop :=
  id q' = id q ∧ text q' = text q ∧ correctAnswer q' = correctAnswer q
  ∧ explanation q' = explanation q ∧ options q' ≡ₚ options q.

Definition retakeCurrent (rnd : nat -> nat) (state : AppState) (k : nat)
  : AppState * nat :=
  let '(reshuffledQuestions, k') := randomize rnd (questions state) k in
  ({| step := exam;
      questions := reshuffledQuestions;
      currentQuestionIndex := 0;
      userAnswers := ∅;
      isLoading := isLoading state;
      error := None |}, k').

(** ** Scoring (index.tsx, lines 209-221, 358-360 and 412-414) *)

(** [userAnswers[idx] === q.correctAnswer]: a missing key reads [undefined],
    which is not [===] to any string. *)
Definition strictEquals (userAns : option string) (correctAnswer : string) : bool :=
  match userAns with
  | Some a => String.eqb a correctAnswer
  | None => false
  end.

Definition isCorrect (state : AppState) (idx : nat) (q : Question) : bool :=
  strictEquals (userAnswers state !! idx) (correctAnswer q).

(** [state.questions.forEach((q, idx) => { if (...) correctCount++ })],
    entered at index [idx] with the current [correctCount]. *)
Fixpoint forEachCount (state : AppState) (qs : list Question) (idx correctCount : nat)
  : nat :=
  match qs with
  | [] => correctCount
  | q :: rest =>
      forEachCount state rest (S idx)
        (if isCorrect state idx q then correctCount + 1 else correctCount)
  end.

Record Results := mkResults { correct : nat; total : nat; score : nat }.

Definition calculateResults (state : AppState) : Results :=
  let correctCount := forEachCount state (questions state) 0 0 in
  {| correct := correctCount;
     total := length (questions state);
     score := correctCount * 2 |}.

(** The marks of the detailed breakdown (lines 412-414):
    [state.questions.map((q, idx) => userAnswers[idx] === q.correctAnswer)]. *)
Definition breakdown (state : AppState) : list bool :=
  imap (λ idx q, isCorrect state idx q) (questions state).

(** *** The percentage: [Math.round((results.correct / results.total) * 100)]

    JavaScript numbers are IEEE 754 doubles. The values that occur here are
    non-negative and far from the overflow and subnormal ranges, so a number
    is [NaN], [+Infinity] or a non-negative rational, and every arithmetic
    operation rounds its exact result to 53 significant bits, ties to even. *)

Inductive JSNumber := NaN | Infinity | Num (q : Q).

(** [floor (log2 q)] for [q > 0]. *)
Definition Qlog2 (q : Q) : Z :=
  let e0 := (Z.log2 (Qnum q) - Z.log2 (Z.pos (Qden q)))%Z in
  if Qle_bool (Qpower 2 e0) q then e0 else (e0 - 1)%Z.

Definition roundHalfEven (m : Q) : Z :=
  let f := Qfloor m in
  match Qcompare (m - inject_Z f) (1 # 2) with
  | Lt => f
  | Gt => (f + 1)%Z
  | Eq => if Z.even f then f else (f + 1)%Z
  end.

(** The double nearest to the non-negative rational [q]. *)
Definition toDouble (q : Q) : Q :=
  if Qle_bool q 0 then 0%Q
  else
    let e := (Qlog2 q - 52)%Z in
    Qred (inject_Z (roundHalfEven (q / Qpower 2 e)) * Qpower 2 e).

(** [a / b] for two array lengths or counters. *)
Definition jsDivide (a b : nat) : JSNumber :=
  match b, a with
  | 0, 0 => NaN
  | 0, S _ => Infinity
  | S _, _ => Num (toDouble (inject_Z (Z.of_nat a) / inject_Z (Z.of_nat b)))
  end.

(** [x * c] for a constant [c > 0]. *)
Definition jsTimes (x : JSNumber) (c : positive) : JSNumber :=
  match x with
  | NaN => NaN
  | Infinity => Infinity
  | Num q => Num (toDouble (q * inject_Z (Z.pos c)))
  end.

(** [Math.round]: the nearest integer, a tie going up; [NaN] and
    [Infinity] are returned as they are. *)
Definition Math_round (x : JSNumber) : JSNumber :=
  match x with
  | NaN => NaN
  | Infinity => Infinity
  | Num q => Num (inject_Z (Qfloor (q + (1 # 2))))
  end.

Definition percentage (results : Results) : JSNumber :=
  Math_round (jsTimes (jsDivide (correct results) (total results)) 100).

(** [round(100 * c / t)] of the specification, in exact arithmetic. *)
Definition exactPercentage (c t : nat) : Z :=
  ((200 * Z.of_nat c + Z.of_nat t) / (2 * Z.of_nat t))%Z.

Definition percentageAgrees (c t : nat) : bool :=
  match percentage {| correct := c; total := t; score := c * 2 |} with
  | Num q => (Qnum q =? exactPercentage c t)%Z && (Qden q =? 1)%positive
  | _ => false
  end.

(** ** The rendered controls (index.tsx, lines 242-249, 287-353, 391-405)

    A handler runs only when its control is on screen and not disabled. The
    exam view is on screen when its render condition holds (line 287:
    [step = exam] and a non-empty array of questions) and its render gets
    through, which needs the question at the cursor, whose text line 308
    reads. Where the condition holds and that question is missing the render
    throws: see [renderThrows] and [runEvent] for what follows. *)

Definition currentQuestion (state : AppState) : option Question :=
  questions state !! currentQuestionIndex state.

Definition examRendered (state : AppState) : bool :=
  bool_decide (step state = exam)
  && bool_decide (0 < length (questions state))
  && bool_decide (is_Some (currentQuestion state)).

(** [!state.userAnswers[idx]] is false exactly for a non-empty string. *)
Definition truthy (v : option string) : bool :=
  match v with
  | Some a => negb (String.eqb a "")
  | None => false
  end.

Definition nextDisabled (state : AppState) : bool :=
  negb (truthy (userAnswers state !! currentQuestionIndex state)).

Definition prevDisabled (state : AppState) : bool :=
  currentQuestionIndex state =? 0.

Inductive Control :=
| OptionButton (idx : nat)
| NextButton
| PrevButton
| RetakeButton
| NewFileButton.

Definition click (rnd : nat -> nat) (c : Control) (state : AppState) (k : nat)
  : AppState * nat :=
  match c with
  | OptionButton idx =>
      if examRendered state then
        match currentQuestion state with
        | Some q =>
            match options q !! idx with
            | Some option => (selectAnswer option state, k)
            | None => (state, k)
            end
        | None => (state, k)
        end
      else (state, k)
  | NextButton =>
      if examRendered state && negb (nextDisabled state)
      then (nextQuestion state, k) else (state, k)
  | PrevButton =>
      if examRendered state && negb (prevDisabled state)
      then (prevQuestion state, k) else (state, k)
  | RetakeButton =>
      if bool_decide (step state = results)
      then retakeCurrent rnd state k else (state, k)
  | NewFileButton =>
      if bool_decide (step state = results)
      then (restartFull, k) else (state, k)
  end.

(** The results view (lines 358-360) computes the results and the
    percentage; it is the only caller of [calculateResults]. *)
Definition resultsView (state : AppState) : option (Results * JSNumber) :=
  if bool_decide (step state = results)
  then Some (calculateResults state, percentage (calculateResults state))
  else None.

(** ** Ingestion (index.tsx, lines 63-157) *)

(** The cap of [text.substring(0, 30000)]. *)
Definition textCap : nat := Z.to_nat 30000.

(** [substring] counts UTF-16 code units, so the extracted text is held as
    the list of its code units; [text.substring(0, 30000)] is then
    [take textCap text]. *)
Definition asciiUnits (s : string) : list N :=
  (λ c, N.of_nat (Ascii.nat_of_ascii c)) <$> String.list_ascii_of_string s.

Record File := mkFile { name : string; type : string }.

(** What the awaited generation call and [JSON.parse] come to: an exception
    with its [message] (empty when there is none), or the parsed [data] with
    its [questions] property, if it has one. *)
Inductive GenOutcome :=
| GenThrows (message : string)
| GenData (data_questions : option (list Question)).

(** Line 79. *)
Definition generateQuestions_begin (prev : AppState) : AppState :=
  {| step := parsing;
     questions := questions prev;
     currentQuestionIndex := currentQuestionIndex prev;
     userAnswers := userAnswers prev;
     isLoading := true;
     error := None |}.

(** Lines 134-139, with [err.message || ...]. *)
Definition generateQuestions_catch (message : string) (prev : AppState) : AppState :=
  {| step := upload;
     questions := questions prev;
     currentQuestionIndex := currentQuestionIndex prev;
     userAnswers := userAnswers prev;
     isLoading := false;
     error := Some ("Ошибка при анализе PDF: "
                    +:+ (if String.eqb message "" then "попробуйте другой файл"
                         else message)) |}.

(** Lines 116-132, once the awaited call has settled. *)
Definition generateQuestions_settle (rnd : nat -> nat) (out : GenOutcome)
    (prev : AppState) (k : nat) : AppState * nat :=
  match out with
  | GenThrows message => (generateQuestions_catch message prev, k)
  | GenData data_questions =>
      match data_questions with
      | Some (q :: qs) =>
          let '(randomizedQuestions, k') := randomize rnd (q :: qs) k in
          ({| step := exam;
              questions := randomizedQuestions;
              currentQuestionIndex := currentQuestionIndex prev;
              userAnswers := userAnswers prev;
              isLoading := false;
              error := error prev |}, k')
      | _ =>
          (generateQuestions_catch
             "Не удалось распознать вопросы в этом документе." prev, k)
      end
  end.

Definition setError (message : string) (prev : AppState) : AppState :=
  {| step := step prev;
     questions := questions prev;
     currentQuestionIndex := currentQuestionIndex prev;
     userAnswers := userAnswers prev;
     isLoading := isLoading prev;
     error := Some message |}.

(** An awaited call in flight: the extraction of a file, or the generation
    for the text [text.substring(0, 30000)] that was sent. *)
Inductive Task :=
| Extracting (file : File)
| Generating (sent : list N).

(** The component with its surroundings: the state, the calls in flight,
    the number of draws made, and whether the component is still mounted. *)
Record World := mkWorld {
  app : AppState;
  tasks : list Task;
  calls : nat;
  mounted : bool
}.

Definition initialWorld : World :=
  {| app := initialState; tasks := []; calls := 0; mounted := true |}.

(** The render of the exam view throws (line 308 reads [.text] of
    [undefined]) when the render condition of line 287 holds and there is no
    question at the cursor. *)
Definition renderThrows (state : AppState) : bool :=
  bool_decide (step state = exam)
  && bool_decide (0 < length (questions state))
  && negb (bool_decide (is_Some (currentQuestion state))).

(** After a state update the component renders; there is no error boundary
    (lines 475-478), so a render that throws unmounts the component. *)
Definition commit (w : World) : World :=
  if renderThrows (app w)
  then {| app := app w; tasks := tasks w; calls := calls w; mounted := false |}
  else w.

(** Lines 143-150: up to the first [await]. *)
Definition handleFileUpload (file : option File) (w : World) : World :=
  match file with
  | None => w
  | Some f =>
      if String.eqb (type f) "application/pdf"
      then {| app := app w; tasks := tasks w ++ [Extracting f];
              calls := calls w; mounted := mounted w |}
      else {| app := setError "Пожалуйста, загрузите только PDF-файл." (app w);
              tasks := tasks w; calls := calls w; mounted := mounted w |}
  end.

(** Lines 151-156 after [await extractTextFromPDF(file)]: the text, or an
    exception. With the text, generateQuestions runs up to its own [await]. *)
Definition extractionSettled (text : option (list N)) (w : World) : World :=
  match text with
  | Some text =>
      {| app := generateQuestions_begin (app w);
         tasks := tasks w ++ [Generating (take textCap text)];
         calls := calls w; mounted := mounted w |}
  | None =>
      {| app := setError "Не удалось прочитать PDF файл." (app w);
         tasks := tasks w; calls := calls w; mounted := mounted w |}
  end.

(** Lines 116-140 after [await ai.models.generateContent(...)]. *)
Definition generationSettled (rnd : nat -> nat) (out : GenOutcome) (w : World) : World :=
  let '(app', k') := generateQuestions_settle rnd out (app w) (calls w) in
  {| app := app'; tasks := tasks w; calls := k'; mounted := mounted w |}.

(** What happens to the component: a file is chosen, the [n]-th call in
    flight settles with what the collaborator answers, or a control is
    clicked. *)
Inductive Event :=
| Upload (file : option File)
| Extracted (n : nat) (text : option (list N))
| Generated (n : nat) (out : GenOutcome)
| Click (c : Control).

(** An event on the mounted component. The file input is on screen in the
    upload step only. An answer for a call that is not in flight at [n] is
    no event of the component. *)
Definition applyEvent (rnd : nat -> nat) (w : World) (e : Event) : World :=
  match e with
  | Upload file =>
      if bool_decide (step (app w) = upload) then handleFileUpload file w else w
  | Extracted n text =>
      match tasks w !! n with
      | Some (Extracting _) =>
          extractionSettled text
            {| app := app w; tasks := delete n (tasks w);
               calls := calls w; mounted := mounted w |}
      | _ => w
      end
  | Generated n out =>
      match tasks w !! n with
      | Some (Generating _) =>
          generationSettled rnd out
            {| app := app w; tasks := delete n (tasks w);
               calls := calls w; mounted := mounted w |}
      | _ => w
      end
  | Click c =>
      let '(app', k') := click rnd c (app w) (calls w) in
      {| app := app'; tasks := tasks w; calls := k'; mounted := mounted w |}
  end.

(** An event after the component was unmounted. Nothing is on screen, so no
    file is chosen and nothing is clicked. The awaited calls still settle and
    their continuations still run (a settled extraction starts its
    generation, a successful generation still shuffles), but every
    [setState] is dropped: the state is left as it was. *)
Definition dropEvent (rnd : nat -> nat) (w : World) (e : Event) : World :=
  match e with
  | Upload _ => w
  | Click _ => w
  | Extracted n text =>
      match tasks w !! n with
      | Some (Extracting _) =>
          {| app := app w;
             tasks := tasks (extractionSettled text
                       {| app := app w; tasks := delete n (tasks w);
                          calls := calls w; mounted := false |});
             calls := calls w; mounted := false |}
      | _ => w
      end
  | Generated n out =>
      match tasks w !! n with
      | Some (Generating _) =>
          {| app := app w; tasks := delete n (tasks w);
             calls := (generateQuestions_settle rnd out (app w) (calls w)).2;
             mounted := false |}
      | _ => w
      end
  end.

Definition runEvent (rnd : nat -> nat) (w : World) (e : Event) : World :=
  if mounted w then commit (applyEvent rnd w e) else dropEvent rnd w e.

Definition run (rnd : nat -> nat) (w : World) (events : list Event) : World :=
  foldl (runEvent rnd) w events.

(** Runs in which no file is chosen while a call is in flight. *)
Definition quiet (w : World) (e : Event) : Prop :=
  match e with
  | Upload _ => tasks w = []
  | _ => True
  end.

Inductive reachableQuiet (rnd : nat -> nat) : World → Prop :=
| reachable_initial : reachableQuiet rnd initialWorld
| reachable_event w e :
    reachableQuiet rnd w → quiet w e → reachableQuiet rnd (runEvent rnd w e).

(** The worlds reached from the start by any events, overlapping uploads
    included. *)
Inductive reachable (rnd : nat -> nat) : World → Prop :=
| reachable_start : reachable rnd initialWorld
| reachable_next w e : reachable rnd w → reachable rnd (runEvent rnd w e).

(** What holds of every world reached in a quiet run: at most one call is
    in flight, the step tells which, and outside an exam nothing of an exam
    is held. *)
Definition quietInvariant (w : World) : Prop :=
  match tasks w with
  | [] => step (app w) ≠ parsing
  | [Extracting _] => step (app w) = upload
  | [Generating _] => step (app w) = parsing
  | _ => False
  end
  ∧ (step (app w) = upload ∨ step (app w) = parsing →
       questions (app w) = [] ∧ userAnswers (app w) = ∅
       ∧ currentQuestionIndex (app w) = 0).

(** The outcomes of a generation that count as a failure: an exception, no
    [questions] property, or an empty array. *)
Definition failedOutcome (out : GenOutcome) : Prop :=
  match out with
  | GenThrows _ => True
  | GenData None => True
  | GenData (Some []) => True
  | GenData (Some (_ :: _)) => False
  end.

(** ** Data for the examples *)

Definition fileA : File := {| name := "a.pdf"; type := "application/pdf" |}.
Definition fileB : File := {| name := "b.pdf"; type := "application/pdf" |}.

Definition exampleQuestion (n : Z) : Question :=
  {| id := n; text := "t"; options := ["A"; "B"]; correctAnswer := "A";
     explanation := None |}.

(** The texts extracted from file A and from file B. *)
Definition textA : list N := asciiUnits "text of A".
Definition textB : list N := asciiUnits "text of B".



(** What the generator answers for file A and for file B. *)
Definition answerA : GenOutcome :=
  GenData (Some [exampleQuestion 1; exampleQuestion 2]).
Definition answerB : GenOutcome :=
  GenData (Some [exampleQuestion 10]).

(** ** More of the component

    What the views show besides the controls, the text extraction, and the
    predicates used to state what runs keep. *)

(** The label of the Next button (line 350):
    [currentQuestionIndex === questions.length - 1 ? ... : ...]. *)
Definition nextLabel (state : AppState) : string :=
  if (Z.of_nat (currentQuestionIndex state)
        =? Z.of_nat (length (questions state)) - 1)%Z
  then "Завершить тест" else "Следующий вопрос".

(** The points shown beside an item of the breakdown (lines 443-445). *)
Definition pointsLabel (isCorrect : bool) : string :=
  if isCorrect then "+2" else "0".

Definition breakdownPoints (state : AppState) : list string :=
  pointsLabel <$> breakdown state.

(** [userAns || "Не отвечено"] (line 427). *)
Definition shownAnswer (userAns : option string) : string :=
  match userAns with
  | Some a => if String.eqb a "" then "Не отвечено" else a
  | None => "Не отвечено"
  end.

(** [items.map(item => item.str).join(' ')] on the strings of a page. *)
Fixpoint join (separator : string) (strs : list string) : string :=
  match strs with
  | [] => ""
  | [s] => s
  | s :: rest => s +:+ separator +:+ join separator rest
  end.

Definition newline : string := String (Ascii.ascii_of_nat 10) "".

(** One turn of the loop of extractTextFromPDF (lines 69-72) for page [i]
    with the strings [items] of its text content. *)
Definition pageSection (i : nat) (items : list string) : string :=
  "--- Страница " +:+ pretty i +:+ " ---" +:+ newline
  +:+ join " " items +:+ newline +:+ newline.

(** [for (let i = 1; i <= pdf.numPages; i++) { fullText += ... }], entered
    at page [i] with the pages still to read. *)
Fixpoint extractLoop (i : nat) (pages : list (list string)) (fullText : string)
  : string :=
  match pages with
  | [] => fullText
  | items :: rest => extractLoop (S i) rest (fullText +:+ pageSection i items)
  end.

(** extractTextFromPDF (lines 63-75) on a document given by the strings of
    each of its pages. *)
Definition extractTextFromPDF (pages : list (list string)) : string :=
  extractLoop 1 pages "".

(** The draws that [shuffleOptions] makes on a list of questions. *)
Definition optionDraws (qs : list Question) : nat :=
  sum_list_with (λ q, length (options q) - 1) qs.

(** A question whose correct answer is one of its options. *)
Definition answerable (q : Question) : Prop := correctAnswer q ∈ options q.

(** Every recorded answer sits at the position of a question and is one of
    that question's options. *)
Definition answersValid (state : AppState) : Prop :=
  ∀ i a, userAnswers state !! i = Some a →
    ∃ q, questions state !! i = Some q ∧ a ∈ options q.

(** The positions before [n] all have a non-empty answer. *)
Definition answeredBefore (state : AppState) (n : nat) : Prop :=
  ∀ i, i < n → truthy (userAnswers state !! i) = true.

(** What a quiet run keeps of the session: the loading flag is up during
    parsing only, an error is shown in the upload step only, the answers are
    valid, the cursor is inside the questions with every earlier question
    answered, and the results come with every question answered. *)
Definition appInvariant (state : AppState) : Prop :=
  isLoading state = bool_decide (step state = parsing)
  ∧ (step state ≠ upload → error state = None)
  ∧ answersValid state
  ∧ (step state = exam →
       currentQuestionIndex state < length (questions state)
       ∧ answeredBefore state (currentQuestionIndex state))
  ∧ (step state = results →
       currentQuestionIndex state + 1 = length (questions state)
       ∧ answeredBefore state (length (questions state))).

Definition sessionInvariant (w : World) : Prop :=
  quietInvariant w ∧ appInvariant (app w) ∧ mounted w = true.

(** A file that starts an extraction when chosen. *)
Definition isPDF (file : option File) : bool :=
  match file with
  | Some f => String.eqb (type f) "application/pdf"
  | None => false
  end.

(** The files chosen in a list of events. *)
Definition choosesPDF (e : Event) : bool :=
  match e with
  | Upload file => isPDF file
  | _ => false
  end.

(** A list of events in which no file is chosen while a call is in flight. *)
Fixpoint quietRun (rnd : nat -> nat) (w : World) (events : list Event) : Prop :=
  match events with
  | [] => True
  | e :: rest => quiet w e ∧ quietRun rnd (runEvent rnd w e) rest
  end.

(** A quiet run of one file through a two-question exam: the file is
    chosen, extracted and turned into questions. *)
Definition examEvents : list Event :=
  [Upload (Some fileA); Extracted 0 (Some textA); Generated 0 answerA].

(** The same run continued through both questions to the results. *)
Definition resultsEvents : list Event :=
  examEvents
  ++ [Click (OptionButton 0); Click NextButton;
      Click (OptionButton 1); Click NextButton].

(** *** Facts about the shuffle *)

Lemma random_below_le rnd k i : random_below rnd k (i + 1) ≤ i.
Proof.
  unfold random_below.
  pose proof (Nat.mod_upper_bound (rnd k) (i + 1)). lia.
Qed.

Lemma random_below_pick rnd k i j :
  j ≤ i → rnd k = j → random_below rnd k (i + 1) = j.
Proof.
  intros Hj Hr. unfold random_below. rewrite Hr. apply Nat.mod_small. lia.
Qed.

Lemma swap_length {T} i j (a : list T) : length (swap i j a) = length a.
Proof.
  unfold swap. destruct (a !! i), (a !! j); auto.
  by rewrite !length_insert.
Qed.

(** Both reads of a swap of the loop are inside the array. *)
Lemma swap_reads_defined {T} rnd k i (a : list T) :
  i < length a →
  is_Some (a !! i) ∧ is_Some (a !! random_below rnd k (i + 1)).
Proof.
  intros Hi. pose proof (random_below_le rnd k i).
  split; apply lookup_lt_is_Some_2; lia.
Qed.

Lemma shuffle_loop_length {T} rnd i (a : list T) k :
  length (shuffle_loop rnd i a k).1 = length a.
Proof.
  revert a k. induction i as [|i IH]; intros a k; simpl; [done|].
  by rewrite IH, swap_length.
Qed.

Lemma insert_head_perm {T} (l : list T) j x y :
  l !! j = Some y → y :: <[j := x]> l ≡ₚ x :: l.
Proof.
  revert j. induction l as [|z l IH]; intros [|j] H; simplify_eq/=.
  - apply perm_swap.
  - etrans; [apply Permutation_swap|]. etrans; [|apply Permutation_swap].
    f_equiv. by apply IH.
Qed.

Lemma swap_insert_perm {T} (l : list T) i j x y :
  l !! i = Some x → l !! j = Some y → <[j := x]> (<[i := y]> l) ≡ₚ l.
Proof.
  revert i j. induction l as [|z l IH]; intros [|i] [|j] Hi Hj; simplify_eq/=.
  - done.
  - by apply insert_head_perm.
  - by apply insert_head_perm.
  - f_equiv. by apply IH.
Qed.

Lemma swap_perm {T} i j (a : list T) : swap i j a ≡ₚ a.
Proof.
  unfold swap. destruct (a !! i) eqn:Hi; [|done].
  destruct (a !! j) eqn:Hj; [|done].
  by apply swap_insert_perm.
Qed.

Lemma shuffle_loop_perm {T} rnd i (a : list T) k : (shuffle_loop rnd i a k).1 ≡ₚ a.
Proof.
  revert a k. induction i as [|i IH]; intros a k; simpl; [done|].
  rewrite IH. apply swap_perm.
Qed.

Lemma shuffle_loop_calls {T} rnd i (a : list T) k : (shuffle_loop rnd i a k).2 = k + i.
Proof.
  revert a k. induction i as [|i IH]; intros a k; simpl; [lia|].
  rewrite IH. lia.
Qed.

Lemma shuffle_loop_ext {T} rnd rnd' i (a : list T) k :
  (∀ m, k ≤ m → rnd m = rnd' m) →
  shuffle_loop rnd i a k = shuffle_loop rnd' i a k.
Proof.
  revert a k. induction i as [|i IH]; intros a k H; simpl; [done|].
  unfold random_below. rewrite (H k) by lia.
  apply IH. intros m Hm. apply H. lia.
Qed.

Lemma shuffleArray_perm {T} rnd (a : list T) k : (shuffleArray rnd a k).1 ≡ₚ a.
Proof. apply shuffle_loop_perm. Qed.

Lemma shuffleArray_calls {T} rnd (a : list T) k :
  (shuffleArray rnd a k).2 = k + (length a - 1).
Proof. apply shuffle_loop_calls. Qed.

Lemma shuffleArray_ext {T} rnd rnd' (a : list T) k :
  (∀ m, k ≤ m → rnd m = rnd' m) →
  shuffleArray rnd a k = shuffleArray rnd' a k.
Proof. apply shuffle_loop_ext. Qed.

Lemma shuffle_loop_S {T} rnd i (a : list T) k :
  shuffle_loop rnd (S i) a k
  = shuffle_loop rnd i (swap (S i) (random_below rnd k (S i + 1)) a) (S k).
Proof. reflexivity. Qed.

(** Every arrangement of the elements is the outcome of some draws: at
    step [i] the draw picks the element that the target has at [i]. *)
Lemma swap_lookup_l {T} i j (a : list T) x y :
  a !! i = Some x → a !! j = Some y → swap i j a !! i = Some y.
Proof.
  intros Hi Hj. unfold swap. rewrite Hi, Hj.
  destruct (decide (i = j)) as [->|Hne].
  - simplify_eq. rewrite list_lookup_insert_eq; [done|].
    rewrite length_insert. by eapply lookup_lt_Some.
  - rewrite list_lookup_insert_ne by done.
    rewrite list_lookup_insert_eq; [done|]. by eapply lookup_lt_Some.
Qed.

Lemma swap_take {T} i j n (a : list T) :
  i < n → j < n → take n (swap i j a) = swap i j (take n a).
Proof.
  intros Hi Hj. unfold swap.
  rewrite !lookup_take_lt by done.
  destruct (a !! i), (a !! j); try done.
  by rewrite !take_insert_lt.
Qed.

Lemma swap_drop {T} i j n (a : list T) :
  i < n → j < n → drop n (swap i j a) = drop n a.
Proof.
  intros Hi Hj. unfold swap.
  destruct (a !! i), (a !! j); try done.
  by rewrite !drop_insert_lt.
Qed.

Lemma shuffle_loop_reach {T} (target : list T) i : ∀ (a : list T) k,
  i < length a →
  take (S i) a ≡ₚ take (S i) target →
  drop (S i) a = drop (S i) target →
  ∃ rnd, (shuffle_loop rnd i a k).1 = target.
Proof.
  induction i as [|i IH]; intros a k Hlen Htake Hdrop.
  - exists (λ _, 0). simpl.
    destruct a as [|x a]; [simpl in Hlen; lia|]. simpl in Htake.
    rewrite take_0 in Htake. apply Permutation_singleton_l in Htake.
    rewrite <- (take_drop 1 target), <- Htake, <- Hdrop. done.
  - assert (Hlt : S i < length target).
    { apply Permutation_length in Htake. rewrite !length_take in Htake. lia. }
    destruct (lookup_lt_is_Some_2 target (S i) Hlt) as [y Hy].
    destruct (lookup_lt_is_Some_2 a (S i) Hlen) as [x Hx].
    assert (Hin : y ∈ take (S (S i)) a).
    { rewrite Htake. apply list_elem_of_lookup. exists (S i).
      rewrite lookup_take_lt by lia. done. }
    apply list_elem_of_lookup in Hin as [j Hj].
    assert (Hjlt : j < S (S i)).
    { apply lookup_lt_Some in Hj. rewrite length_take in Hj. lia. }
    rewrite lookup_take_lt in Hj by done.
    destruct (IH (swap (S i) j a) (S k)) as [rnd' Hrnd'].
    + rewrite swap_length. lia.
    + assert (Hfull : take (S (S i)) (swap (S i) j a) ≡ₚ take (S (S i)) target).
      { rewrite swap_take by lia. rewrite swap_perm. done. }
      rewrite (take_S_r _ _ y) in Hfull by (by eapply swap_lookup_l).
      rewrite (take_S_r target _ y) in Hfull by done.
      by apply (inj (λ l, l ++ [y])) in Hfull.
    + rewrite (drop_S _ y (S i)) by (by eapply swap_lookup_l).
      rewrite (drop_S target y (S i)) by done.
      rewrite swap_drop by lia. by rewrite Hdrop.
    + exists (λ m, if decide (m = k) then j else rnd' m).
      rewrite shuffle_loop_S.
      rewrite (random_below_pick _ k (S i) j); [|lia|by rewrite decide_True].
      rewrite <- Hrnd'. f_equal. apply shuffle_loop_ext.
      intros m Hm. rewrite decide_False by lia. done.
Qed.

Lemma shuffleArray_reach {T} (a target : list T) k :
  target ≡ₚ a → ∃ rnd, (shuffleArray rnd a k).1 = target.
Proof.
  intros Hp. unfold shuffleArray.
  destruct a as [|x a].
  - apply Permutation_nil_r in Hp. subst. by exists (λ _, 0).
  - pose proof (Permutation_length Hp) as Hlen.
    apply shuffle_loop_reach.
    + simpl. lia.
    + rewrite !take_ge by (simpl in *; lia). done.
    + rewrite !drop_ge by (simpl in *; lia). done.
Qed.

(** The shuffle moves positions, whatever the elements are. *)
Lemma swap_fmap {A B} (f : A → B) i j (a : list A) :
  swap i j (f <$> a) = f <$> swap i j a.
Proof.
  unfold swap. rewrite !list_lookup_fmap.
  destruct (a !! i), (a !! j); simpl; try done.
  by rewrite !list_fmap_insert.
Qed.

Lemma shuffle_loop_fmap {A B} (f : A → B) rnd i : ∀ (a : list A) k,
  (shuffle_loop rnd i (f <$> a) k).1 = f <$> (shuffle_loop rnd i a k).1.
Proof.
  induction i as [|i IH]; intros a k; [done|].
  rewrite !shuffle_loop_S, swap_fmap. apply IH.
Qed.

Lemma shuffleArray_fmap {A B} (f : A → B) rnd (a : list A) k :
  (shuffleArray rnd (f <$> a) k).1 = f <$> (shuffleArray rnd a k).1.
Proof.
  unfold shuffleArray. rewrite length_fmap. apply shuffle_loop_fmap.
Qed.

Lemma lookup_positions {T} (l : list T) :
  (λ p, l !! p) <$> seq 0 (length l) = Some <$> l.
Proof.
  apply list_eq. intros i. rewrite !list_lookup_fmap.
  destruct (decide (i < length l)) as [Hi|Hi].
  - rewrite lookup_seq_lt by done. simpl.
    destruct (lookup_lt_is_Some_2 l i Hi) as [x Hx]. by rewrite Hx.
  - rewrite lookup_seq_ge by lia. by rewrite lookup_ge_None_2 by lia.
Qed.

Lemma shuffleArray_reach_positions {T} (l : list T) (σ : list nat) k :
  σ ≡ₚ seq 0 (length l) →
  ∃ rnd, ∀ i, (shuffleArray rnd l k).1 !! i = σ !! i ≫= (λ p, l !! p).
Proof.
  intros Hp. destruct (shuffleArray_reach (seq 0 (length l)) σ k Hp) as [rnd Hr].
  exists rnd. intros i.
  pose proof (shuffleArray_fmap (λ p, l !! p) rnd (seq 0 (length l)) k) as H1.
  rewrite lookup_positions, shuffleArray_fmap, Hr in H1.
  apply (f_equal (λ x, x !! i)) in H1. rewrite !list_lookup_fmap in H1.
  destruct ((shuffleArray rnd l k).1 !! i), (σ !! i); simpl in *; congruence.
Qed.

Lemma shuffleArray_nil {T} rnd k : shuffleArray rnd (@nil T) k = ([], k).
Proof. reflexivity. Qed.

Lemma shuffleArray_singleton {T} rnd (x : T) k : shuffleArray rnd [x] k = ([x], k).
Proof. reflexivity. Qed.

(** *** The shuffle over the store *)

Lemma shuffle_loop_ref_spec {T} rnd i n : ∀ (h : gmap nat (list T)) l k,
  h !! n = Some l →
  shuffle_loop_ref rnd i n h k
  = (<[n := (shuffle_loop rnd i l k).1]> h, (shuffle_loop rnd i l k).2).
Proof.
  induction i as [|i IH]; intros h l k Hl.
  - simpl. by rewrite insert_id.
  - cbn [shuffle_loop_ref]. rewrite shuffle_loop_S.
    unfold swap_ref at 1. rewrite Hl.
    erewrite IH by apply lookup_insert_eq.
    by rewrite insert_insert_eq.
Qed.

Lemma shuffleArray_ref_spec {T} rnd array (h : gmap nat (list T)) l k :
  h !! array = Some l →
  shuffleArray_ref rnd array h k
  = Some (fresh (dom h),
          <[fresh (dom h) := (shuffleArray rnd l k).1]> h,
          (shuffleArray rnd l k).2).
Proof.
  intros Hl. unfold shuffleArray_ref. rewrite Hl.
  erewrite shuffle_loop_ref_spec by apply lookup_insert_eq.
  by rewrite insert_insert_eq.
Qed.

Lemma fresh_not_allocated {T} (h : gmap nat (list T)) : h !! fresh (dom h) = None.
Proof. apply not_elem_of_dom. apply is_fresh. Qed.

(** C5. shuffleArray, called on an array object [array] holding [l], always
    returns: the result is a newly allocated array, every array that existed
    before (the input among them) holds what it held, the result holds a
    permutation of [l], an empty or one-element input comes back with the
    same elements, and every arrangement of the elements of [l], and every
    permutation [σ] of its positions (the result holding at [i] what [l]
    holds at [σ !! i]), is the result for some outcome of the draws. *)
Theorem shuffleArray_permutation_fresh_total {T} (rnd : nat -> nat)
    (h : gmap nat (list T)) (array : nat) (l : list T) (k : nat) :
  h !! array = Some l →
  ∃ newArray h' k',
    shuffleArray_ref rnd array h k = Some (newArray, h', k')
    ∧ h !! newArray = None
    ∧ newArray ≠ array
    ∧ (∀ a, a ≠ newArray → h' !! a = h !! a)
    ∧ h' !! array = Some l
    ∧ h' !! newArray = Some (shuffleArray rnd l k).1
    ∧ (shuffleArray rnd l k).1 ≡ₚ l
    ∧ (l = [] → (shuffleArray rnd l k).1 = [])
    ∧ (∀ x, l = [x] → (shuffleArray rnd l k).1 = [x])
    ∧ (∀ target, target ≡ₚ l →
         ∃ rnd' newArray' h'' k'',
           shuffleArray_ref rnd' array h k = Some (newArray', h'', k'')
           ∧ h'' !! newArray' = Some target
           ∧ (shuffleArray rnd' l k).1 = target)
    ∧ (∀ σ : list nat, σ ≡ₚ seq 0 (length l) →
         ∃ rnd', ∀ i, (shuffleArray rnd' l k).1 !! i = σ !! i ≫= (λ p, l !! p)).
Proof.
  intros Hl.
  pose proof (fresh_not_allocated h) as Hfresh.
  assert (Hne : fresh (dom h) ≠ array) by (intros E; rewrite E in Hfresh; congruence).
  eexists _, _, _. split; [by apply shuffleArray_ref_spec|].
  repeat split.
  - done.
  - done.
  - intros a Ha. by rewrite lookup_insert_ne.
  - by rewrite lookup_insert_ne.
  - apply lookup_insert_eq.
  - apply shuffleArray_perm.
  - by intros ->.
  - by intros x ->.
  - intros target Hp.
    destruct (shuffleArray_reach l target k Hp) as [rnd' Hr].
    eexists rnd', _, _, _. split; [by apply shuffleArray_ref_spec|].
    split; [|done]. rewrite lookup_insert_eq. by rewrite Hr.
  - intros σ Hp. by apply shuffleArray_reach_positions.
Qed.

Lemma shuffleArray_permutation_fresh_total_witness :
  ∃ newArray h' k',
    shuffleArray_ref (λ n, n) 0 {[0 := ["a"; "b"; "c"]]} 0 = Some (newArray, h', k')
    ∧ h' !! 0 = Some ["a"; "b"; "c"]
    ∧ h' !! newArray = Some (shuffleArray (λ n, n) ["a"; "b"; "c"] 0).1.
Proof.
  destruct (shuffleArray_permutation_fresh_total (λ n, n)
              ({[0 := ["a"; "b"; "c"]]} : gmap nat (list string)) 0 ["a"; "b"; "c"] 0)
    as (newArray & h' & k' & H1 & _ & _ & _ & H5 & H6 & _).
  - apply lookup_singleton_eq.
  - exists newArray, h', k'. auto.
Defined.

Example shuffleArray_example :
  (shuffleArray (λ n, n) ["a"; "b"; "c"; "d"] 0).1 = ["c"; "d"; "b"; "a"]
  ∧ (shuffleArray (λ _, 0) ["a"; "b"; "c"; "d"] 0).1 = ["b"; "c"; "d"; "a"].
Proof. split; reflexivity. Qed.

(** ** Scoring *)

Lemma strictEquals_true userAns ca :
  strictEquals userAns ca = true ↔ userAns = Some ca.
Proof.
  destruct userAns as [a|]; simpl.
  - rewrite String.eqb_eq. split; congruence.
  - split; discriminate.
Qed.

Lemma forEachCount_filter state qs : ∀ idx correctCount,
  forEachCount state qs idx correctCount
  = correctCount
    + length (filter (λ b, b = true) (imap (λ i q, isCorrect state (idx + i) q) qs)).
Proof.
  induction qs as [|q rest IH]; intros idx c; simpl; [lia|].
  rewrite IH. rewrite Nat.add_0_r.
  rewrite (imap_ext (λ i q0, isCorrect state (S idx + i) q0)
                    ((λ i q0, isCorrect state (idx + i) q0) ∘ S))
    by (intros; simpl; f_equal; lia).
  rewrite filter_cons. destruct (isCorrect state idx q).
  - rewrite decide_True by done. simpl. lia.
  - rewrite decide_False by done. lia.
Qed.

Lemma correct_le_total state :
  correct (calculateResults state) ≤ total (calculateResults state).
Proof.
  unfold calculateResults. simpl. rewrite forEachCount_filter. simpl.
  etrans; [apply length_filter|]. by rewrite length_imap.
Qed.

(** C6. For every session (a completed one in particular), the mark of
    position [i] is true exactly when the answer recorded at [i] is the
    question's correctAnswer, a position with no recorded answer is marked
    false, calculateResults is total, its [correct] is the number of true
    marks and its [score] is [correct * 2]. *)
Theorem calculateResults_counts_correct (state : AppState) :
  (∀ i q, questions state !! i = Some q →
     breakdown state !! i = Some (isCorrect state i q)
     ∧ (isCorrect state i q = true ↔ userAnswers state !! i = Some (correctAnswer q))
     ∧ (userAnswers state !! i = None → isCorrect state i q = false))
  ∧ length (breakdown state) = length (questions state)
  ∧ correct (calculateResults state) = length (filter (λ b, b = true) (breakdown state))
  ∧ score (calculateResults state) = correct (calculateResults state) * 2
  ∧ total (calculateResults state) = length (questions state).
Proof.
  repeat split.
  - unfold breakdown. rewrite list_lookup_imap, H. done.
  - apply strictEquals_true.
  - apply strictEquals_true.
  - intros Hnone. unfold isCorrect. by rewrite Hnone.
  - apply length_imap.
  - unfold calculateResults, breakdown. simpl. by rewrite forEachCount_filter.
Qed.

Lemma calculateResults_counts_correct_witness :
  let q (n : Z) (a : string) :=
    {| id := n; text := "t"; options := ["x"; "y"]; correctAnswer := a;
       explanation := None |} in
  let state :=
    {| step := results; questions := [q 1%Z "x"; q 2%Z "y"];
       currentQuestionIndex := 1;
       userAnswers := <[0 := "x"]> ∅;
       isLoading := false; error := None |} in
  breakdown state !! 0 = Some true
  ∧ isCorrect state 1 (q 2%Z "y") = false
  ∧ score (calculateResults state) = 2.
Proof.
  intros q state.
  destruct (calculateResults_counts_correct state) as (H1 & _ & _ & H4 & _).
  split_and!.
  - destruct (H1 0 (q 1%Z "x")) as (Hb & _); [reflexivity|]. exact Hb.
  - destruct (H1 1 (q 2%Z "y")) as (_ & _ & Hn); [reflexivity|].
    apply Hn. reflexivity.
  - rewrite H4. reflexivity.
Defined.

(** The scenario of the specification: three questions, the first and the
    third answered correctly, the second incorrectly. *)
Example calculateResults_scenario :
  let q (n : Z) (a : string) :=
    {| id := n; text := "t"; options := ["x"; "y"]; correctAnswer := a;
       explanation := None |} in
  let state :=
    {| step := results; questions := [q 1%Z "x"; q 2%Z "y"; q 3%Z "x"];
       currentQuestionIndex := 2;
       userAnswers := <[2 := "x"]> (<[1 := "x"]> (<[0 := "x"]> ∅));
       isLoading := false; error := None |} in
  calculateResults state = {| correct := 2; total := 3; score := 4 |}
  ∧ percentage (calculateResults state) = Num (inject_Z 67).
Proof. split; vm_compute; reflexivity. Qed.

(** ** Navigation and answers *)

Lemma nextQuestion_inner state :
  currentQuestionIndex state + 1 < length (questions state) →
  nextQuestion state
  = {| step := step state; questions := questions state;
       currentQuestionIndex := currentQuestionIndex state + 1;
       userAnswers := userAnswers state; isLoading := isLoading state;
       error := error state |}.
Proof.
  intros H. unfold nextQuestion.
  destruct (Z.ltb_spec (Z.of_nat (currentQuestionIndex state))
                       (Z.of_nat (length (questions state)) - 1)); [done|lia].
Qed.

Lemma nextQuestion_last state :
  length (questions state) ≤ currentQuestionIndex state + 1 →
  nextQuestion state
  = {| step := results; questions := questions state;
       currentQuestionIndex := currentQuestionIndex state;
       userAnswers := userAnswers state; isLoading := isLoading state;
       error := error state |}.
Proof.
  intros H. unfold nextQuestion.
  destruct (Z.ltb_spec (Z.of_nat (currentQuestionIndex state))
                       (Z.of_nat (length (questions state)) - 1)); [lia|done].
Qed.

Lemma examRendered_true state :
  examRendered state = true →
  step state = exam
  ∧ 0 < length (questions state)
  ∧ currentQuestionIndex state < length (questions state).
Proof.
  unfold examRendered, currentQuestion.
  rewrite !andb_true_iff, !bool_decide_eq_true.
  intros [[H1 H2] H3]. repeat split; try done.
  by apply lookup_lt_is_Some_1.
Qed.

Lemma examRendered_false state : step state ≠ exam → examRendered state = false.
Proof.
  intros H. unfold examRendered. by rewrite (bool_decide_eq_false_2 _ H).
Qed.

Lemma truthy_Some a : a ≠ "" → truthy (Some a) = true.
Proof.
  intros H. simpl. apply negb_true_iff. by apply String.eqb_neq.
Qed.

Lemma forEachCount_answers s1 s2 qs : ∀ idx c,
  userAnswers s1 = userAnswers s2 →
  forEachCount s1 qs idx c = forEachCount s2 qs idx c.
Proof.
  induction qs as [|q rest IH]; intros idx c H; simpl; [done|].
  unfold isCorrect. rewrite H. by apply IH.
Qed.

Lemma calculateResults_answers s1 s2 :
  questions s1 = questions s2 → userAnswers s1 = userAnswers s2 →
  calculateResults s1 = calculateResults s2.
Proof.
  intros Hq Ha. unfold calculateResults. rewrite Hq.
  by rewrite (forEachCount_answers s1 s2).
Qed.

Lemma breakdown_answers s1 s2 :
  questions s1 = questions s2 → userAnswers s1 = userAnswers s2 →
  breakdown s1 = breakdown s2.
Proof.
  intros Hq Ha. unfold breakdown. rewrite Hq.
  apply imap_ext. intros i q _. unfold isCorrect. by rewrite Ha.
Qed.

(** C10. nextQuestion with the cursor at the last index changes the step
    to results and nothing else: questions, answers, cursor, loading flag
    and error are as before, and calculateResults reads the same answers. *)
Theorem nextQuestion_last_only_step (state : AppState) :
  currentQuestionIndex state + 1 = length (questions state) →
  step (nextQuestion state) = results
  ∧ questions (nextQuestion state) = questions state
  ∧ userAnswers (nextQuestion state) = userAnswers state
  ∧ currentQuestionIndex (nextQuestion state) = currentQuestionIndex state
  ∧ isLoading (nextQuestion state) = isLoading state
  ∧ error (nextQuestion state) = error state
  ∧ calculateResults (nextQuestion state) = calculateResults state
  ∧ breakdown (nextQuestion state) = breakdown state.
Proof.
  intros H. rewrite nextQuestion_last by lia.
  repeat (split; [reflexivity|]).
  split; [by apply calculateResults_answers | by apply breakdown_answers].
Qed.

Lemma nextQuestion_last_only_step_witness :
  let q :=
    {| id := 7%Z; text := "t"; options := ["x"; "y"]; correctAnswer := "x";
       explanation := None |} in
  let state :=
    {| step := exam; questions := [q; q]; currentQuestionIndex := 1;
       userAnswers := <[1 := "y"]> (<[0 := "x"]> ∅);
       isLoading := false; error := None |} in
  step (nextQuestion state) = results
  ∧ userAnswers (nextQuestion state) = userAnswers state
  ∧ calculateResults (nextQuestion state) = calculateResults state.
Proof.
  intros q state.
  destruct (nextQuestion_last_only_step state) as (H1 & _ & H3 & _ & _ & _ & H7 & _).
  - reflexivity.
  - auto.
Defined.

(** C2, as the code has it. While the exam view is on screen and no answer
    is recorded at the cursor, the Next control is disabled and a click on
    it changes nothing, at the last index too. With a non-empty answer
    recorded, the click adds exactly one to the cursor when the cursor is not
    the last index, and sets the step to results when it is. *)
Theorem next_requires_answer (rnd : nat -> nat) (state : AppState) (k : nat) :
  examRendered state = true →
  (userAnswers state !! currentQuestionIndex state = None →
     click rnd NextButton state k = (state, k))
  ∧ (∀ a, userAnswers state !! currentQuestionIndex state = Some a → a ≠ "" →
       (currentQuestionIndex state + 1 < length (questions state) →
          click rnd NextButton state k
          = ({| step := step state; questions := questions state;
                currentQuestionIndex := currentQuestionIndex state + 1;
                userAnswers := userAnswers state; isLoading := isLoading state;
                error := error state |}, k))
       ∧ (currentQuestionIndex state + 1 = length (questions state) →
          click rnd NextButton state k
          = ({| step := results; questions := questions state;
                currentQuestionIndex := currentQuestionIndex state;
                userAnswers := userAnswers state; isLoading := isLoading state;
                error := error state |}, k))).
Proof.
  intros Hr. split.
  - intros Hnone. unfold click, nextDisabled. rewrite Hr, Hnone. reflexivity.
  - intros a Ha Hne. unfold click, nextDisabled.
    rewrite Hr, Ha, (truthy_Some a Hne). cbn [negb andb]. split; intros H.
    + rewrite nextQuestion_inner; done.
    + rewrite nextQuestion_last; [done|lia].
Qed.

Lemma next_requires_answer_witness :
  let q :=
    {| id := 7%Z; text := "t"; options := ["x"; "y"]; correctAnswer := "x";
       explanation := None |} in
  let state :=
    {| step := exam; questions := [q; q]; currentQuestionIndex := 0;
       userAnswers := ∅; isLoading := false; error := None |} in
  click (λ n, n) NextButton state 0 = (state, 0)
  ∧ currentQuestionIndex (click (λ n, n) NextButton (selectAnswer "y" state) 0).1 = 1.
Proof.
  intros q state. split.
  - destruct (next_requires_answer (λ n, n) state 0) as [H _]; [reflexivity|].
    apply H. reflexivity.
  - destruct (next_requires_answer (λ n, n) (selectAnswer "y" state) 0) as [_ H];
      [reflexivity|].
    destruct (H "y") as [H1 _]; [reflexivity|discriminate|].
    rewrite H1; [reflexivity|simpl; lia].
Defined.

(** C2 as stated fails under both readings of advance(). The handler
    nextQuestion asks for no answer: with nothing recorded at a cursor that
    is not the last index it still moves on. The Next control, which does
    ask for one, does not complete the exam from the last index while the
    last question is unanswered. *)
Lemma advance_claim_fails :
  let q :=
    {| id := 7%Z; text := "t"; options := ["x"; "y"]; correctAnswer := "x";
       explanation := None |} in
  let first :=
    {| step := exam; questions := [q; q]; currentQuestionIndex := 0;
       userAnswers := ∅; isLoading := false; error := None |} in
  let last :=
    {| step := exam; questions := [q; q]; currentQuestionIndex := 1;
       userAnswers := <[0 := "x"]> ∅; isLoading := false; error := None |} in
  (userAnswers first !! currentQuestionIndex first = None
   ∧ currentQuestionIndex (nextQuestion first) = 1)
  ∧ (currentQuestionIndex last + 1 = length (questions last)
     ∧ step (click (λ n, n) NextButton last 0).1 = exam).
Proof. repeat split. Qed.

(** C3, as the code has it. selectAnswer records the string it is given at
    the cursor, whether or not it is one of the current question's options,
    and changes nothing else; there is no InvalidAnswer. The option buttons
    of the exam view only ever pass a member of the current question's
    options. *)
Theorem selectAnswer_records_any_string (option : string) (state : AppState) :
  userAnswers (selectAnswer option state) !! currentQuestionIndex state = Some option
  ∧ (∀ i, i ≠ currentQuestionIndex state →
       userAnswers (selectAnswer option state) !! i = userAnswers state !! i)
  ∧ step (selectAnswer option state) = step state
  ∧ questions (selectAnswer option state) = questions state
  ∧ currentQuestionIndex (selectAnswer option state) = currentQuestionIndex state
  ∧ isLoading (selectAnswer option state) = isLoading state
  ∧ error (selectAnswer option state) = error state
  ∧ (∀ rnd idx k,
       click rnd (OptionButton idx) state k = (state, k)
       ∨ ∃ q o, currentQuestion state = Some q ∧ o ∈ options q
                ∧ click rnd (OptionButton idx) state k = (selectAnswer o state, k)).
Proof.
  repeat split.
  - apply lookup_insert_eq.
  - intros i Hi. simpl. by rewrite lookup_insert_ne.
  - intros rnd idx k. unfold click.
    destruct (examRendered state); [|by left].
    destruct (currentQuestion state) as [q|]; [|by left].
    destruct (options q !! idx) as [o|] eqn:Ho; [|by left].
    right. exists q, o. repeat split. apply list_elem_of_lookup. eauto.
Qed.

Lemma selectAnswer_records_any_string_witness :
  let q :=
    {| id := 7%Z; text := "t"; options := ["A"; "B"]; correctAnswer := "A";
       explanation := None |} in
  let state :=
    {| step := exam; questions := [q; q]; currentQuestionIndex := 1;
       userAnswers := <[0 := "A"]> ∅; isLoading := false; error := None |} in
  userAnswers (selectAnswer "B" state) !! 1 = Some "B"
  ∧ userAnswers (selectAnswer "B" state) !! 0 = Some "A".
Proof.
  intros q state.
  destruct (selectAnswer_records_any_string "B" state) as (H1 & H2 & _).
  split; [exact H1|]. rewrite H2; [reflexivity|discriminate].
Defined.

(** C3 as stated fails: a string outside the current question's options is
    recorded like any other. *)
Lemma selectAnswer_records_non_member :
  let q :=
    {| id := 7%Z; text := "t"; options := ["A"; "B"]; correctAnswer := "A";
       explanation := None |} in
  let state :=
    {| step := exam; questions := [q]; currentQuestionIndex := 0;
       userAnswers := ∅; isLoading := false; error := None |} in
  currentQuestion state = Some q
  ∧ ("Z" ∉ options q)
  ∧ userAnswers (selectAnswer "Z" state) !! 0 = Some "Z".
Proof.
  repeat split. simpl. rewrite !elem_of_cons, elem_of_nil.
  intros [H|[H|H]]; [discriminate..|done].
Qed.

(** C1, as the code has it. The handlers carry no check of the step and
    there is no InvalidTransition: what keeps an operation out of a step
    that does not support it is the view. The option, Next and Previous
    controls exist only in the exam step and the Retake and New-file
    controls only in the results step; a click on a control that is not on
    screen changes nothing, neither the session nor the count of draws, and
    the results (the score) are computed in the results step only. *)
Theorem click_outside_step_changes_nothing
    (rnd : nat -> nat) (state : AppState) (k : nat) :
  (step state ≠ exam →
     (∀ idx, click rnd (OptionButton idx) state k = (state, k))
     ∧ click rnd NextButton state k = (state, k)
     ∧ click rnd PrevButton state k = (state, k))
  ∧ (step state ≠ results →
       click rnd RetakeButton state k = (state, k)
       ∧ click rnd NewFileButton state k = (state, k)
       ∧ resultsView state = None).
Proof.
  split.
  - intros H. unfold click. rewrite (examRendered_false _ H). by repeat split.
  - intros H. unfold click, resultsView.
    rewrite (bool_decide_eq_false_2 _ H). by repeat split.
Qed.

Lemma click_outside_step_changes_nothing_witness :
  let q :=
    {| id := 7%Z; text := "t"; options := ["A"; "B"]; correctAnswer := "A";
       explanation := None |} in
  let done_ :=
    {| step := results; questions := [q]; currentQuestionIndex := 0;
       userAnswers := <[0 := "A"]> ∅; isLoading := false; error := None |} in
  click (λ n, n) (OptionButton 1) done_ 0 = (done_, 0)
  ∧ click (λ n, n) NextButton done_ 0 = (done_, 0)
  ∧ click (λ n, n) PrevButton done_ 0 = (done_, 0).
Proof.
  intros q done_.
  destruct (click_outside_step_changes_nothing (λ n, n) done_ 0) as [H _].
  destruct H as (H1 & H2 & H3); [discriminate|].
  split; [apply H1 | split; assumption].
Defined.

(** C1 as stated fails: the handlers themselves run in any step. On a
    completed session selectAnswer still records its argument, on the
    initial (upload) session nextQuestion sets the step to results, and on
    an exam in progress retakeCurrent empties the recorded answers. *)
Lemma handlers_run_in_any_step :
  let q :=
    {| id := 7%Z; text := "t"; options := ["A"; "B"]; correctAnswer := "A";
       explanation := None |} in
  let done_ :=
    {| step := results; questions := [q]; currentQuestionIndex := 0;
       userAnswers := <[0 := "A"]> ∅; isLoading := false; error := None |} in
  let active :=
    {| step := exam; questions := [q]; currentQuestionIndex := 0;
       userAnswers := <[0 := "A"]> ∅; isLoading := false; error := None |} in
  (userAnswers (selectAnswer "B" done_) !! 0 = Some "B"
   ∧ selectAnswer "B" done_ ≠ done_)
  ∧ (step (nextQuestion initialState) = results
     ∧ nextQuestion initialState ≠ initialState)
  ∧ (userAnswers (retakeCurrent (λ n, n) active 0).1 !! 0 = None
     ∧ (retakeCurrent (λ n, n) active 0).1 ≠ active).
Proof.
  intros q done_ active. repeat split.
  - intros H. apply (f_equal (λ s, userAnswers s !! 0)) in H. discriminate.
  - intros H. apply (f_equal step) in H. discriminate.
  - intros H. apply (f_equal (λ s, userAnswers s !! 0)) in H. discriminate.
Qed.

(** ** Retake *)

Lemma shuffle_loop_window {T} rnd rnd' i : ∀ (a : list T) k,
  (∀ m, k ≤ m < k + i → rnd m = rnd' m) →
  shuffle_loop rnd i a k = shuffle_loop rnd' i a k.
Proof.
  induction i as [|i IH]; intros a k H; [done|].
  rewrite !shuffle_loop_S. unfold random_below. rewrite (H k) by lia.
  apply IH. intros m Hm. apply H. lia.
Qed.

Lemma shuffleOptions_same rnd qs : ∀ k,
  Forall2 sameUpToOptions qs (shuffleOptions rnd qs k).1.
Proof.
  induction qs as [|q rest IH]; intros k; simpl; [constructor|].
  destruct (shuffleArray rnd (options q) k) as [opts k1] eqn:Ho.
  specialize (IH k1).
  destruct (shuffleOptions rnd rest k1) as [rest' k2]. simpl in *.
  constructor; [|done].
  repeat split. simpl.
  change opts with (opts, k1).1. rewrite <- Ho. apply shuffleArray_perm.
Qed.

Lemma shuffleOptions_calls rnd qs : ∀ k, k ≤ (shuffleOptions rnd qs k).2.
Proof.
  induction qs as [|q rest IH]; intros k; simpl; [done|].
  destruct (shuffleArray rnd (options q) k) as [opts k1] eqn:Ho.
  specialize (IH k1).
  destruct (shuffleOptions rnd rest k1) as [rest' k2]. simpl in *.
  pose proof (shuffleArray_calls rnd (options q) k) as Hc.
  rewrite Ho in Hc. simpl in Hc. lia.
Qed.

Lemma shuffleOptions_ext rnd rnd' qs : ∀ k,
  (∀ m, k ≤ m → rnd m = rnd' m) →
  shuffleOptions rnd qs k = shuffleOptions rnd' qs k.
Proof.
  induction qs as [|q rest IH]; intros k H; simpl; [done|].
  rewrite <- (shuffleArray_ext rnd rnd' (options q) k H).
  destruct (shuffleArray rnd (options q) k) as [opts k1] eqn:Ho.
  rewrite (IH k1); [done|].
  intros m Hm. apply H.
  pose proof (shuffleArray_calls rnd (options q) k) as Hc.
  rewrite Ho in Hc. simpl in Hc. lia.
Qed.

Lemma randomize_same rnd qs k :
  ∃ qs', qs' ≡ₚ qs ∧ Forall2 sameUpToOptions qs' (randomize rnd qs k).1.
Proof.
  unfold randomize.
  destruct (shuffleArray rnd qs k) as [shuffled k1] eqn:Hs.
  exists shuffled. split.
  - change shuffled with (shuffled, k1).1. rewrite <- Hs. apply shuffleArray_perm.
  - apply shuffleOptions_same.
Qed.

Lemma randomize_calls rnd qs k : k ≤ (randomize rnd qs k).2.
Proof.
  unfold randomize.
  destruct (shuffleArray rnd qs k) as [shuffled k1] eqn:Hs.
  pose proof (shuffleArray_calls rnd qs k) as Hc. rewrite Hs in Hc. simpl in Hc.
  pose proof (shuffleOptions_calls rnd shuffled k1). lia.
Qed.

Lemma randomize_ext rnd rnd' qs k :
  (∀ m, k ≤ m → rnd m = rnd' m) → randomize rnd qs k = randomize rnd' qs k.
Proof.
  intros H. unfold randomize.
  rewrite <- (shuffleArray_ext rnd rnd' qs k H).
  destruct (shuffleArray rnd qs k) as [shuffled k1] eqn:Hs.
  apply shuffleOptions_ext. intros m Hm. apply H.
  pose proof (shuffleArray_calls rnd qs k) as Hc. rewrite Hs in Hc. simpl in Hc. lia.
Qed.

Lemma randomize_reach qs target k :
  target ≡ₚ qs →
  ∃ rnd, Forall2 sameUpToOptions target (randomize rnd qs k).1.
Proof.
  intros Hp. destruct (shuffleArray_reach qs target k Hp) as [rnd Hr].
  exists rnd. unfold randomize.
  destruct (shuffleArray rnd qs k) as [shuffled k1]. simpl in Hr. subst.
  apply shuffleOptions_same.
Qed.

Lemma randomize_length rnd qs k : length (randomize rnd qs k).1 = length qs.
Proof.
  destruct (randomize_same rnd qs k) as (qs' & Hp & Hf).
  rewrite <- (Forall2_length _ _ _ Hf). by apply Permutation_length.
Qed.

(** Every order of the options of every question is the outcome of some
    draws: the draws of one question's shuffle are followed by those of the
    next. *)
Lemma shuffleOptions_reach qs target :
  Forall2 sameUpToOptions qs target →
  ∀ k, ∃ rnd, (shuffleOptions rnd qs k).1 = target.
Proof.
  induction 1 as [|q q' qs target Hq _ IH]; intros k.
  - by exists (λ _, 0).
  - destruct Hq as (Hid & Htext & Hca & Hex & Hopts).
    destruct (shuffleArray_reach (options q) (options q') k Hopts) as [rnd1 H1].
    destruct (IH (k + (length (options q) - 1))) as [rnd2 H2].
    exists (λ m, if decide (m < k + (length (options q) - 1)) then rnd1 m else rnd2 m).
    cbn [shuffleOptions].
    assert (Hfirst :
      shuffleArray (λ m, if decide (m < k + (length (options q) - 1))
                         then rnd1 m else rnd2 m) (options q) k
      = shuffleArray rnd1 (options q) k).
    { apply shuffle_loop_window. intros m Hm. by rewrite decide_True by lia. }
    rewrite Hfirst.
    pose proof (shuffleArray_calls rnd1 (options q) k) as Hc.
    destruct (shuffleArray rnd1 (options q) k) as [opts k1]. simpl in H1, Hc.
    subst opts k1.
    rewrite (shuffleOptions_ext _ rnd2)
      by (intros m Hm; by rewrite decide_False by lia).
    destruct (shuffleOptions rnd2 qs (k + (length (options q) - 1))) as [rest k2].
    simpl in H2. subst rest. simpl.
    destruct q'. simpl in *. by subst.
Qed.

(** Every order of the questions together with every order of the options
    of each is the outcome of some draws. *)
Lemma randomize_reach_full qs qs' target k :
  qs' ≡ₚ qs → Forall2 sameUpToOptions qs' target →
  ∃ rnd, (randomize rnd qs k).1 = target.
Proof.
  intros Hp Hf.
  destruct (shuffleArray_reach qs qs' k Hp) as [rnd1 H1].
  destruct (shuffleOptions_reach qs' target Hf (k + (length qs - 1))) as [rnd2 H2].
  exists (λ m, if decide (m < k + (length qs - 1)) then rnd1 m else rnd2 m).
  unfold randomize.
  assert (Hfirst :
    shuffleArray (λ m, if decide (m < k + (length qs - 1)) then rnd1 m else rnd2 m) qs k
    = shuffleArray rnd1 qs k).
  { apply shuffle_loop_window. intros m Hm. by rewrite decide_True by lia. }
  rewrite Hfirst.
  pose proof (shuffleArray_calls rnd1 qs k) as Hc.
  destruct (shuffleArray rnd1 qs k) as [shuffled k1]. simpl in H1, Hc.
  subst shuffled k1.
  rewrite (shuffleOptions_ext _ rnd2)
    by (intros m Hm; by rewrite decide_False by lia).
  done.
Qed.

Lemma sameUpToOptions_refl qs : Forall2 sameUpToOptions qs qs.
Proof.
  apply Forall_Forall2_diag, Forall_forall. intros q _. by repeat split.
Qed.

Lemma swap_differs {T} a b (l : list T) x y :
  l !! a = Some x → l !! b = Some y → x ≠ y → swap a b l ≠ l.
Proof.
  intros Ha Hb Hne E.
  pose proof (swap_lookup_l a b l x y Ha Hb) as H.
  rewrite E in H. congruence.
Qed.

Lemma retakeCurrent_unfold rnd state k :
  retakeCurrent rnd state k
  = ({| step := exam;
        questions := (randomize rnd (questions state) k).1;
        currentQuestionIndex := 0;
        userAnswers := ∅;
        isLoading := isLoading state;
        error := None |}, (randomize rnd (questions state) k).2).
Proof.
  unfold retakeCurrent. by destruct (randomize rnd (questions state) k).
Qed.

(** C8. On a completed session retakeCurrent sets the cursor to 0, empties
    the answers and sets the step to exam. The new questions are the old
    ones in some order, each with its own options in some order. The order
    comes from draws made at the time of the retake only (changing earlier
    draws changes nothing). Both the questions and the options of every
    question are reshuffled: every order of the questions together with every
    order of the options of each of them is the outcome of some draws. So
    the new order is not bound to be the previous one: when the first two
    questions have different ids some draws give another order of the
    questions, and when a question has two different options some draws give
    that question, at its place, another order of its options. *)
Theorem retakeCurrent_reshuffles_and_resets
    (rnd : nat -> nat) (state : AppState) (k : nat) :
  step state = results →
  step (retakeCurrent rnd state k).1 = exam
  ∧ currentQuestionIndex (retakeCurrent rnd state k).1 = 0
  ∧ userAnswers (retakeCurrent rnd state k).1 = ∅
  ∧ (∃ qs', qs' ≡ₚ questions state
            ∧ Forall2 sameUpToOptions qs' (questions (retakeCurrent rnd state k).1))
  ∧ k ≤ (retakeCurrent rnd state k).2
  ∧ (∀ rnd', (∀ m, k ≤ m → rnd m = rnd' m) →
       retakeCurrent rnd' state k = retakeCurrent rnd state k)
  ∧ (∀ target, target ≡ₚ questions state →
       ∃ rnd', Forall2 sameUpToOptions target
                 (questions (retakeCurrent rnd' state k).1))
  ∧ (∀ q1 q2 rest, questions state = q1 :: q2 :: rest → id q1 ≠ id q2 →
       ∃ rnd', questions (retakeCurrent rnd' state k).1 ≠ questions state)
  ∧ (∀ qs' target, qs' ≡ₚ questions state → Forall2 sameUpToOptions qs' target →
       ∃ rnd', questions (retakeCurrent rnd' state k).1 = target)
  ∧ (∀ i q a b o1 o2,
       questions state !! i = Some q →
       options q !! a = Some o1 → options q !! b = Some o2 → o1 ≠ o2 →
       ∃ rnd' q',
         questions (retakeCurrent rnd' state k).1 !! i = Some q'
         ∧ sameUpToOptions q q'
         ∧ options q' ≠ options q
         ∧ questions (retakeCurrent rnd' state k).1 ≠ questions state).
Proof.
  intros _. rewrite retakeCurrent_unfold. simpl.
  split_and!; try done.
  - apply randomize_same.
  - apply randomize_calls.
  - intros rnd' H. rewrite !retakeCurrent_unfold.
    by rewrite (randomize_ext rnd rnd').
  - intros target Hp. destruct (randomize_reach _ target k Hp) as [rnd' H].
    exists rnd'. by rewrite retakeCurrent_unfold.
  - intros q1 q2 rest Hq Hid.
    destruct (randomize_reach (questions state) (q2 :: q1 :: rest) k) as [rnd' H].
    { rewrite Hq. apply Permutation_swap. }
    exists rnd'. rewrite retakeCurrent_unfold. simpl. intros E.
    rewrite E, Hq in H. inversion H as [|? ? ? ? Hsame _]; subst.
    destruct Hsame as [Hid' _]. congruence.
  - intros qs' target Hp Hf.
    destruct (randomize_reach_full (questions state) qs' target k Hp Hf) as [rnd' H].
    exists rnd'. by rewrite retakeCurrent_unfold.
  - intros i q a b o1 o2 Hq Ha Hb Hne.
    set (q' := {| id := id q; text := text q; options := swap a b (options q);
                  correctAnswer := correctAnswer q; explanation := explanation q |}).
    assert (Hsame : sameUpToOptions q q').
    { repeat split. simpl. apply swap_perm. }
    assert (Hdiff : options q' ≠ options q) by (by eapply swap_differs).
    destruct (randomize_reach_full (questions state) (questions state)
                (<[i := q']> (questions state)) k) as [rnd' H]; [done| |].
    { rewrite <- (list_insert_id (questions state) i q Hq) at 1.
      apply Forall2_insert; [apply sameUpToOptions_refl|done]. }
    exists rnd', q'. rewrite retakeCurrent_unfold. simpl. rewrite H.
    split_and!; try done.
    + apply list_lookup_insert_eq. by eapply lookup_lt_Some.
    + intros E. apply (f_equal (λ l, l !! i)) in E.
      rewrite list_lookup_insert_eq in E by (by eapply lookup_lt_Some).
      rewrite Hq in E. injection E as E. apply Hdiff. by rewrite E.
Qed.

Lemma retakeCurrent_reshuffles_and_resets_witness :
  let q (n : Z) :=
    {| id := n; text := "t"; options := ["A"; "B"]; correctAnswer := "A";
       explanation := None |} in
  let state :=
    {| step := results; questions := [q 1%Z; q 2%Z; q 3%Z];
       currentQuestionIndex := 2;
       userAnswers := <[0 := "A"]> ∅; isLoading := false; error := None |} in
  step (retakeCurrent (λ n, n) state 0).1 = exam
  ∧ currentQuestionIndex (retakeCurrent (λ n, n) state 0).1 = 0
  ∧ userAnswers (retakeCurrent (λ n, n) state 0).1 = ∅
  ∧ (∃ rnd' q',
       questions (retakeCurrent rnd' state 0).1 !! 0 = Some q'
       ∧ sameUpToOptions (q 1%Z) q'
       ∧ options q' ≠ ["A"; "B"]).
Proof.
  intros q state.
  destruct (retakeCurrent_reshuffles_and_resets (λ n, n) state 0)
    as (H1 & H2 & H3 & _ & _ & _ & _ & _ & _ & H10); [reflexivity|].
  split_and!; [exact H1|exact H2|exact H3|].
  destruct (H10 0 (q 1%Z) 0 1 "A" "B") as (rnd' & q' & Hq' & Hsame & Hdiff & _);
    [reflexivity|reflexivity|reflexivity|discriminate|].
  exists rnd', q'. split_and!; [exact Hq'|exact Hsame|exact Hdiff].
Defined.

(** Two retakes of the same completed session under different draws. *)
Example retakeCurrent_example :
  let q (n : Z) :=
    {| id := n; text := "t"; options := ["A"; "B"]; correctAnswer := "A";
       explanation := None |} in
  let state :=
    {| step := results; questions := [q 1%Z; q 2%Z; q 3%Z];
       currentQuestionIndex := 2;
       userAnswers := <[0 := "A"]> ∅; isLoading := false; error := None |} in
  (id <$> questions (retakeCurrent (λ _, 0) state 0).1) = [2; 3; 1]%Z
  ∧ (options <$> questions (retakeCurrent (λ _, 0) state 0).1)
    = [["B"; "A"]; ["B"; "A"]; ["B"; "A"]]
  ∧ (id <$> questions (retakeCurrent (λ n, n) state 0).1) = [3; 2; 1]%Z
  ∧ (options <$> questions (retakeCurrent (λ n, n) state 0).1)
    = [["B"; "A"]; ["A"; "B"]; ["B"; "A"]].
Proof. split_and!; vm_compute; reflexivity. Qed.

(** ** Ingestion *)

Lemma generateQuestions_settle_failed rnd out prev k :
  failedOutcome out →
  ∃ message,
    generateQuestions_settle rnd out prev k
    = (generateQuestions_catch message prev, k).
Proof.
  destruct out as [m|[[|q qs]|]]; simpl; intros H; try done; eauto.
Qed.

Lemma generateQuestions_settle_success rnd q qs prev k :
  generateQuestions_settle rnd (GenData (Some (q :: qs))) prev k
  = ({| step := exam;
        questions := (randomize rnd (q :: qs) k).1;
        currentQuestionIndex := currentQuestionIndex prev;
        userAnswers := userAnswers prev;
        isLoading := false;
        error := error prev |}, (randomize rnd (q :: qs) k).2).
Proof.
  unfold generateQuestions_settle. by destruct (randomize rnd (q :: qs) k).
Qed.

Lemma click_step rnd c state k :
  click rnd c state k = (state, k)
  ∨ ((step state = exam ∨ step state = results)
     ∧ (step (click rnd c state k).1 = exam
        ∨ step (click rnd c state k).1 = results
        ∨ click rnd c state k = (restartFull, k))).
Proof.
  destruct c as [idx| | | |]; unfold click.
  - destruct (examRendered state) eqn:Hr; [|by left].
    apply examRendered_true in Hr as (He & _).
    destruct (currentQuestion state) as [q|]; [|by left].
    destruct (options q !! idx); [|by left].
    right. simpl. auto.
  - destruct (examRendered state) eqn:Hr; [|by left].
    apply examRendered_true in Hr as (He & _).
    destruct (negb (nextDisabled state)); [|by left].
    right. split; [auto|]. simpl. unfold nextQuestion.
    destruct (_ <? _)%Z; simpl; auto.
  - destruct (examRendered state) eqn:Hr; [|by left].
    apply examRendered_true in Hr as (He & _).
    destruct (negb (prevDisabled state)); [|by left].
    right. split; [auto|]. simpl. unfold prevQuestion.
    destruct (_ <? _); simpl; auto.
  - case_bool_decide as Hs; [|by left].
    right. split; [auto|]. rewrite retakeCurrent_unfold. simpl. auto.
  - case_bool_decide as Hs; [|by left].
    right. auto.
Qed.

Lemma answersValid_empty state : userAnswers state = ∅ → answersValid state.
Proof. intros H i a. by rewrite H, lookup_empty. Qed.

Lemma truthy_true v : truthy v = true → ∃ a, v = Some a ∧ a ≠ "".
Proof.
  destruct v as [a|]; simpl; [|done].
  intros H. exists a. split; [done|].
  apply negb_true_iff in H. by apply String.eqb_neq.
Qed.

Lemma appInvariant_initial : appInvariant initialState.
Proof.
  split_and!; simpl; try done; try (by apply answersValid_empty).
Qed.

Lemma appInvariant_setError message state :
  step state = upload → appInvariant state → appInvariant (setError message state).
Proof.
  intros Hs (Hl & He & Hv & Hex & Hres).
  split_and!; simpl; try done; congruence.
Qed.

Lemma appInvariant_begin state :
  userAnswers state = ∅ → appInvariant (generateQuestions_begin state).
Proof.
  intros Ha. split_and!; simpl; try done; try (by apply answersValid_empty).
Qed.

Lemma appInvariant_catch message state :
  appInvariant state → appInvariant (generateQuestions_catch message state).
Proof.
  intros (Hl & He & Hv & Hex & Hres). split_and!; simpl; done.
Qed.

Lemma appInvariant_settle rnd out state k :
  step state = parsing →
  userAnswers state = ∅ → currentQuestionIndex state = 0 →
  appInvariant state →
  appInvariant (generateQuestions_settle rnd out state k).1.
Proof.
  intros Hs Ha Hc Hinv. pose proof Hinv as (Hl & He & Hv & Hex & Hres).
  destruct out as [m|[[|q qs]|]]; simpl; try by apply appInvariant_catch.
  pose proof (randomize_length rnd (q :: qs) k) as Hlen.
  destruct (randomize rnd (q :: qs) k) as [r k']. simpl in *.
  refine (conj _ (conj _ (conj _ (conj _ _)))); simpl.
  - done.
  - intros _. apply He. congruence.
  - by apply answersValid_empty.
  - intros _. rewrite Hc. split; [lia|]. intros i Hi. lia.
  - discriminate.
Qed.

Lemma appInvariant_selectAnswer state q o :
  step state = exam →
  currentQuestion state = Some q → o ∈ options q →
  appInvariant state → appInvariant (selectAnswer o state).
Proof.
  intros Hs Hq Ho (Hl & He & Hv & Hex & Hres).
  destruct (Hex Hs) as [Hlt Hbefore].
  refine (conj _ (conj _ (conj _ (conj _ _)))); simpl.
  - done.
  - done.
  - intros i a. simpl.
    destruct (decide (i = currentQuestionIndex state)) as [->|Hne].
    + rewrite lookup_insert_eq. intros [= <-]. eauto.
    + rewrite lookup_insert_ne by done. apply Hv.
  - intros _. split; [done|]. intros i Hi. simpl.
    rewrite lookup_insert_ne by lia. by apply Hbefore.
  - congruence.
Qed.

Lemma appInvariant_nextQuestion state :
  step state = exam →
  nextDisabled state = false →
  appInvariant state → appInvariant (nextQuestion state).
Proof.
  intros Hs Hd (Hl & He & Hv & Hex & Hres).
  destruct (Hex Hs) as [Hlt Hbefore].
  assert (Hcur : truthy (userAnswers state !! currentQuestionIndex state) = true).
  { unfold nextDisabled in Hd. by apply negb_false_iff in Hd. }
  assert (Hnext : answeredBefore state (currentQuestionIndex state + 1)).
  { intros i Hi. destruct (decide (i = currentQuestionIndex state)) as [->|Hne];
      [done|]. apply Hbefore. lia. }
  destruct (decide (currentQuestionIndex state + 1 < length (questions state)))
    as [Hin|Hlast].
  - rewrite nextQuestion_inner by done.
    refine (conj _ (conj _ (conj _ (conj _ _)))); simpl.
    + done.
    + done.
    + done.
    + intros _. by split.
    + congruence.
  - rewrite nextQuestion_last by lia.
    refine (conj _ (conj _ (conj _ (conj _ _)))); simpl.
    + rewrite Hl, Hs. done.
    + intros _. apply He. congruence.
    + done.
    + discriminate.
    + intros _. split; [lia|].
      replace (length (questions state)) with (currentQuestionIndex state + 1) by lia.
      done.
Qed.

Lemma appInvariant_prevQuestion state :
  step state = exam → appInvariant state → appInvariant (prevQuestion state).
Proof.
  intros Hs Hinv. pose proof Hinv as (Hl & He & Hv & Hex & Hres).
  destruct (Hex Hs) as [Hlt Hbefore].
  unfold prevQuestion. destruct (Nat.ltb_spec 0 (currentQuestionIndex state)); [|done].
  refine (conj _ (conj _ (conj _ (conj _ _)))); simpl.
  - done.
  - done.
  - done.
  - intros _. split; [lia|]. intros i Hi. apply Hbefore. lia.
  - congruence.
Qed.

Lemma appInvariant_retakeCurrent rnd state k :
  step state = results → appInvariant state →
  appInvariant (retakeCurrent rnd state k).1.
Proof.
  intros Hs (Hl & He & Hv & Hex & Hres).
  destruct (Hres Hs) as [Hlen _].
  rewrite retakeCurrent_unfold.
  refine (conj _ (conj _ (conj _ (conj _ _)))); simpl.
  - rewrite Hl, Hs. done.
  - done.
  - by apply answersValid_empty.
  - intros _. rewrite randomize_length. split; [lia|]. intros i Hi. lia.
  - discriminate.
Qed.

Lemma appInvariant_click rnd c state k :
  appInvariant state → appInvariant (click rnd c state k).1.
Proof.
  intros Hinv. destruct c as [idx| | | |]; unfold click.
  - destruct (examRendered state) eqn:Hr; [|done].
    apply examRendered_true in Hr as (Hs & _).
    destruct (currentQuestion state) as [q|] eqn:Hq; [|done].
    destruct (options q !! idx) as [o|] eqn:Ho; [|done].
    simpl. eapply appInvariant_selectAnswer; eauto.
    apply list_elem_of_lookup. eauto.
  - destruct (examRendered state) eqn:Hr; [|done].
    apply examRendered_true in Hr as (Hs & _).
    destruct (nextDisabled state) eqn:Hd; [done|].
    simpl. by apply appInvariant_nextQuestion.
  - destruct (examRendered state) eqn:Hr; [|done].
    apply examRendered_true in Hr as (Hs & _).
    destruct (negb (prevDisabled state)); [|done].
    simpl. by apply appInvariant_prevQuestion.
  - case_bool_decide as Hs; [|done]. by apply appInvariant_retakeCurrent.
  - case_bool_decide as Hs; [|done]. apply appInvariant_initial.
Qed.

(** *** Mounted and unmounted *)

Lemma commit_app w : app (commit w) = app w.
Proof. unfold commit. by destruct (renderThrows (app w)). Qed.

Lemma commit_tasks w : tasks (commit w) = tasks w.
Proof. unfold commit. by destruct (renderThrows (app w)). Qed.

Lemma commit_calls w : calls (commit w) = calls w.
Proof. unfold commit. by destruct (renderThrows (app w)). Qed.

Lemma commit_mounted w :
  mounted (commit w) = mounted w && negb (renderThrows (app w)).
Proof.
  unfold commit. destruct (renderThrows (app w)); simpl.
  - by rewrite andb_false_r.
  - by rewrite andb_true_r.
Qed.

Lemma commit_renders w : renderThrows (app w) = false → commit w = w.
Proof. intros H. unfold commit. by rewrite H. Qed.

Lemma applyEvent_mounted rnd w e : mounted (applyEvent rnd w e) = mounted w.
Proof.
  destruct e as [file|n text|n out|c]; simpl.
  - case_bool_decide; [|done]. destruct file as [f|]; simpl; [|done].
    by destruct (String.eqb (type f) "application/pdf").
  - destruct (tasks w !! n) as [[f|sent]|]; [|done..]. by destruct text.
  - destruct (tasks w !! n) as [[f|sent]|]; [done| |done].
    unfold generationSettled. simpl.
    by destruct (generateQuestions_settle rnd out (app w) (calls w)).
  - by destruct (click rnd c (app w) (calls w)).
Qed.

Lemma runEvent_mounted rnd w e :
  mounted w = true →
  app (runEvent rnd w e) = app (applyEvent rnd w e)
  ∧ tasks (runEvent rnd w e) = tasks (applyEvent rnd w e)
  ∧ calls (runEvent rnd w e) = calls (applyEvent rnd w e)
  ∧ mounted (runEvent rnd w e) = negb (renderThrows (app (applyEvent rnd w e))).
Proof.
  intros Hm. unfold runEvent. rewrite Hm.
  rewrite commit_app, commit_tasks, commit_calls, commit_mounted.
  by rewrite applyEvent_mounted, Hm.
Qed.

Lemma runEvent_unmounted rnd w e :
  mounted w = false →
  app (runEvent rnd w e) = app w ∧ mounted (runEvent rnd w e) = false.
Proof.
  intros Hm. unfold runEvent. rewrite Hm.
  destruct e as [file|n text|n out|c]; simpl; try done.
  - by destruct (tasks w !! n) as [[f|sent]|].
  - by destruct (tasks w !! n) as [[f|sent]|].
Qed.

Lemma renderThrows_in_range state :
  (step state = exam → currentQuestionIndex state < length (questions state)) →
  renderThrows state = false.
Proof.
  intros H. unfold renderThrows, currentQuestion.
  destruct (decide (step state = exam)) as [Hs|Hs].
  - rewrite (bool_decide_eq_true_2 (is_Some _))
      by (apply lookup_lt_is_Some_2; auto).
    simpl. by rewrite andb_false_r.
  - by rewrite (bool_decide_eq_false_2 _ Hs).
Qed.

Lemma renderThrows_appInvariant state : appInvariant state → renderThrows state = false.
Proof.
  intros (_ & _ & _ & Hex & _). apply renderThrows_in_range.
  intros Hs. by destruct (Hex Hs).
Qed.

(** A mounted component has just rendered: in every world reached from the
    start that is still mounted, the render did not throw, so the exam view
    is on screen exactly when the render condition of line 287 holds. *)
Lemma reachable_mounted_renders rnd w :
  reachable rnd w → mounted w = true →
  renderThrows (app w) = false
  ∧ examRendered (app w)
    = bool_decide (step (app w) = exam)
      && bool_decide (0 < length (questions (app w))).
Proof.
  intros Hr Hm.
  assert (Ht : renderThrows (app w) = false).
  { destruct Hr as [|w e _]; [done|].
    destruct (mounted w) eqn:Hw.
    - destruct (runEvent_mounted rnd w e Hw) as (-> & _ & _ & Hm').
      rewrite Hm' in Hm. by apply negb_true_iff in Hm.
    - destruct (runEvent_unmounted rnd w e Hw) as [_ Hm']. congruence. }
  split; [done|]. unfold renderThrows in Ht. unfold examRendered.
  destruct (bool_decide (step (app w) = exam)); [|done].
  destruct (bool_decide (0 < length (questions (app w)))); [|done].
  simpl in *. apply negb_false_iff in Ht. by rewrite Ht.
Qed.

(** *** What quiet runs keep *)

Lemma quietInvariant_initial : quietInvariant initialWorld.
Proof. split; simpl; [done|auto]. Qed.

Lemma quiet_single_task w n t :
  quietInvariant w → tasks w !! n = Some t → tasks w = [t] ∧ n = 0.
Proof.
  intros [Ht _] H.
  destruct (tasks w) as [|t1 [|t2 ts]]; [done| |by destruct t1].
  destruct n as [|n]; [|done]. simpl in H. by simplify_eq.
Qed.

Lemma quietInvariant_apply rnd w e :
  quietInvariant w → quiet w e → quietInvariant (applyEvent rnd w e).
Proof.
  intros Hinv Hquiet. pose proof Hinv as [Ht Hq].
  destruct e as [file|n text|n out|c]; simpl in *.
  - case_bool_decide as Hs; [|done].
    destruct file as [f|]; simpl; [|done].
    destruct (String.eqb (type f) "application/pdf").
    + split; simpl; rewrite ?Hquiet; simpl; auto.
    + rewrite Hquiet in Ht. split; simpl; rewrite ?Hquiet; auto.
  - destruct (tasks w) as [|t [|t' ts]] eqn:Hts;
      [by rewrite lookup_nil| |by destruct t].
    destruct n as [|n]; simpl; [|done].
    destruct t as [f|sent]; [|done].
    destruct text as [text|]; split; simpl; auto.
    rewrite Ht. discriminate.
  - destruct (tasks w) as [|t [|t' ts]] eqn:Hts;
      [by rewrite lookup_nil| |by destruct t].
    destruct n as [|n]; simpl; [|done].
    destruct t as [f|sent]; [done|].
    unfold generationSettled. simpl.
    destruct out as [m|[[|q qs]|]]; simpl.
    + split; simpl; [discriminate|auto].
    + split; simpl; [discriminate|auto].
    + destruct (randomize _ _ _) as [r k']. split; simpl; [discriminate|].
      intros [?|?]; discriminate.
    + split; simpl; [discriminate|auto].
  - destruct (click_step rnd c (app w) (calls w)) as [E|[Hs Hs']].
    + by rewrite E; destruct w.
    + assert (Hnil : tasks w = []).
      { destruct (tasks w) as [|[f|sent] [|t' ts]]; try done;
          destruct Hs; congruence. }
      destruct (click rnd c (app w) (calls w)) as [app' k'] eqn:Hc.
      simpl in *. split; simpl; rewrite ?Hnil.
      * destruct Hs' as [?|[?|E]]; [congruence..|]. by inversion E.
      * destruct Hs' as [?|[?|E]]; [intros [?|?]; congruence..|].
        inversion E. auto.
Qed.

Lemma appInvariant_apply rnd w e :
  quietInvariant w → appInvariant (app w) → quiet w e →
  appInvariant (app (applyEvent rnd w e)).
Proof.
  intros Hq Ha Hquiet. pose proof Hq as [Ht Hempty].
  destruct e as [file|n text|n out|c]; simpl in *.
  - case_bool_decide as Hs; [|done].
    destruct file as [f|]; simpl; [|done].
    destruct (String.eqb (type f) "application/pdf"); simpl; [done|].
    by apply appInvariant_setError.
  - destruct (tasks w !! n) as [[f|sent]|] eqn:Hn; [|done..].
    destruct (quiet_single_task w n _ Hq Hn) as [Htasks ->].
    rewrite Htasks in Ht.
    destruct text as [text|]; simpl.
    + apply appInvariant_begin. apply Hempty. auto.
    + by apply appInvariant_setError.
  - destruct (tasks w !! n) as [[f|sent]|] eqn:Hn; [done| |done].
    destruct (quiet_single_task w n _ Hq Hn) as [Htasks ->].
    rewrite Htasks in Ht.
    destruct (Hempty (or_intror Ht)) as (_ & Hans & Hcur).
    unfold generationSettled. simpl.
    pose proof (appInvariant_settle rnd out (app w) (calls w) Ht Hans Hcur Ha) as H.
    by destruct (generateQuestions_settle rnd out (app w) (calls w)).
  - pose proof (appInvariant_click rnd c (app w) (calls w) Ha) as H.
    by destruct (click rnd c (app w) (calls w)).
Qed.

(** In a quiet run no render throws: an event of a quiet run is the event
    on the mounted component. *)
Lemma runEvent_quiet rnd w e :
  sessionInvariant w → quiet w e → runEvent rnd w e = applyEvent rnd w e.
Proof.
  intros (Hq & Ha & Hm) Hquiet. unfold runEvent. rewrite Hm.
  apply commit_renders, renderThrows_appInvariant.
  by apply appInvariant_apply.
Qed.

Lemma sessionInvariant_event rnd w e :
  sessionInvariant w → quiet w e → sessionInvariant (runEvent rnd w e).
Proof.
  intros Hinv Hquiet. rewrite (runEvent_quiet rnd w e Hinv Hquiet).
  destruct Hinv as (Hq & Ha & Hm). split_and!.
  - by apply quietInvariant_apply.
  - by apply appInvariant_apply.
  - by rewrite applyEvent_mounted.
Qed.

Lemma reachableQuiet_sessionInvariant rnd w :
  reachableQuiet rnd w → sessionInvariant w.
Proof.
  induction 1 as [|w e _ IH Hq].
  - split_and!; [apply quietInvariant_initial | apply appInvariant_initial | done].
  - by apply sessionInvariant_event.
Qed.

Lemma reachableQuiet_invariant rnd w : reachableQuiet rnd w → quietInvariant w.
Proof. intros H. by apply reachableQuiet_sessionInvariant in H as [? _]. Qed.

Lemma applyEvent_generated rnd w n sent out :
  tasks w !! n = Some (Generating sent) →
  applyEvent rnd w (Generated n out)
  = {| app := (generateQuestions_settle rnd out (app w) (calls w)).1;
       tasks := delete n (tasks w);
       calls := (generateQuestions_settle rnd out (app w) (calls w)).2;
       mounted := mounted w |}.
Proof.
  intros H. unfold applyEvent. rewrite H. unfold generationSettled. simpl.
  by destruct (generateQuestions_settle _ _ _ _).
Qed.


Lemma reachableQuiet_run rnd events : ∀ w,
  reachableQuiet rnd w → quietRun rnd w events →
  reachableQuiet rnd (run rnd w events).
Proof.
  induction events as [|e rest IH]; intros w Hw Hq; [done|].
  destruct Hq as [He Hrest]. apply IH; [|done]. by apply reachable_event.
Qed.

Lemma reachable_run rnd events : ∀ w,
  reachable rnd w → reachable rnd (run rnd w events).
Proof.
  induction events as [|e rest IH]; intros w Hw; [done|].
  apply IH. by apply reachable_next.
Qed.

(** *** The claims on ingestion *)




(** C9, as the code has it. An attempt carries no token and nothing
    compares attempts: when a generation call settles on the mounted
    component, its outcome is applied to the session whichever position it
    has among the calls in flight. A non-empty array of questions sets the
    step to exam and the questions to that array randomized, keeping the
    cursor and the answers; a failure sets the step to upload and the error.
    So the session holds the outcome that settled last. The one thing that
    stops this is a result that leaves the cursor outside the new questions:
    the exam view then throws, the component is unmounted, and from then on
    no outcome is applied. *)
Theorem settled_outcome_always_applied
    (rnd : nat -> nat) (w : World) (n : nat) (sent : list N) (out : GenOutcome) :
  tasks w !! n = Some (Generating sent) →
  tasks (runEvent rnd w (Generated n out)) = delete n (tasks w)
  ∧ (mounted w = true →
       (∀ q qs,
          out = GenData (Some (q :: qs)) →
          step (app (runEvent rnd w (Generated n out))) = exam
          ∧ questions (app (runEvent rnd w (Generated n out)))
            = (randomize rnd (q :: qs) (calls w)).1
          ∧ currentQuestionIndex (app (runEvent rnd w (Generated n out)))
            = currentQuestionIndex (app w)
          ∧ userAnswers (app (runEvent rnd w (Generated n out))) = userAnswers (app w)
          ∧ mounted (runEvent rnd w (Generated n out))
            = bool_decide (currentQuestionIndex (app w) < S (length qs)))
       ∧ (failedOutcome out →
            step (app (runEvent rnd w (Generated n out))) = upload
            ∧ is_Some (error (app (runEvent rnd w (Generated n out))))
            ∧ questions (app (runEvent rnd w (Generated n out))) = questions (app w)
            ∧ mounted (runEvent rnd w (Generated n out)) = true))
  ∧ (mounted w = false →
       app (runEvent rnd w (Generated n out)) = app w
       ∧ mounted (runEvent rnd w (Generated n out)) = false).
Proof.
  intros Ht. split_and!.
  - unfold runEvent. destruct (mounted w).
    + rewrite commit_tasks. by rewrite (applyEvent_generated rnd w n sent out Ht).
    + simpl. by rewrite Ht.
  - intros Hm.
    destruct (runEvent_mounted rnd w (Generated n out) Hm) as (-> & _ & _ & ->).
    rewrite (applyEvent_generated rnd w n sent out Ht). simpl. split.
    + intros q qs ->. rewrite generateQuestions_settle_success. simpl.
      split_and!; try done.
      unfold renderThrows, currentQuestion. simpl.
      pose proof (randomize_length rnd (q :: qs) (calls w)) as Hlen.
      simpl in Hlen.
      rewrite (bool_decide_eq_true_2 (0 < _)) by lia. simpl.
      rewrite negb_involutive. apply bool_decide_ext.
      rewrite lookup_lt_is_Some. by rewrite Hlen.
    + intros Hfail.
      destruct (generateQuestions_settle_failed rnd out (app w) (calls w) Hfail)
        as [message ->]. simpl. split_and!; eauto.
  - intros Hm. by apply runEvent_unmounted.
Qed.

Lemma settled_outcome_always_applied_witness :
  let w :=
    run (λ n, n) initialWorld
      [Upload (Some fileA); Upload (Some fileB);
       Extracted 0 (Some textA); Extracted 0 (Some textB);
       Generated 1 answerB] in
  tasks w = [Generating textA]
  ∧ (id <$> questions (app w)) = [10]%Z
  ∧ step (app (runEvent (λ n, n) w (Generated 0 answerA))) = exam
  ∧ questions (app (runEvent (λ n, n) w (Generated 0 answerA)))
    = (randomize (λ n, n) [exampleQuestion 1; exampleQuestion 2] (calls w)).1.
Proof.
  intros w. split; [reflexivity|]. split; [reflexivity|].
  destruct (settled_outcome_always_applied (λ n, n) w 0 textA answerA)
    as (_ & H & _).
  - reflexivity.
  - destruct H as [H _]; [reflexivity|].
    destruct (H (exampleQuestion 1) [exampleQuestion 2]) as (H1 & H2 & _).
    + reflexivity.
    + auto.
Defined.

(** C9 as stated fails: file B is chosen while file A is still being
    extracted; the generation for B settles first and the one for A after it.
    The component stays mounted and the result for A is not discarded: the
    session ends with the questions of A, where a run with B alone ends with
    the question of B. *)
Lemma stale_result_not_discarded :
  let both :=
    run (λ n, n) initialWorld
      [Upload (Some fileA); Upload (Some fileB);
       Extracted 0 (Some textA); Extracted 0 (Some textB);
       Generated 1 answerB; Generated 0 answerA] in
  let onlyB :=
    run (λ n, n) initialWorld
      [Upload (Some fileB); Extracted 0 (Some textB); Generated 0 answerB] in
  (id <$> questions (app onlyB)) = [10]%Z
  ∧ (id <$> questions (app both)) = [1; 2]%Z
  ∧ step (app both) = exam
  ∧ mounted both = true
  ∧ tasks both = []
  ∧ questions (app both) ≠ questions (app onlyB).
Proof.
  intros both onlyB. split_and!; try (vm_compute; reflexivity).
  intros H. apply (f_equal length) in H. vm_compute in H. discriminate.
Qed.

(** A stale result can also end the session: three files are chosen during
    the first extraction; the questions of A arrive and the user moves to
    the second question; the single question of B then arrives, the cursor is
    outside it, the render throws and the component is unmounted; the
    questions of the third attempt, arriving last, are dropped. *)
Example stale_result_unmounts :
  let w :=
    run (λ n, n) initialWorld
      [Upload (Some fileA); Upload (Some fileB); Upload (Some fileA);
       Extracted 0 (Some textA); Extracted 0 (Some textB); Extracted 0 (Some textA);
       Generated 0 answerA; Click (OptionButton 0); Click NextButton;
       Generated 0 answerB] in
  currentQuestionIndex (app w) = 1
  ∧ (id <$> questions (app w)) = [10]%Z
  ∧ renderThrows (app w) = true
  ∧ mounted w = false
  ∧ tasks w = [Generating textA]
  ∧ app (runEvent (λ n, n) w (Generated 0 answerA)) = app w
  ∧ tasks (runEvent (λ n, n) w (Generated 0 answerA)) = [].
Proof. split_and!; vm_compute; reflexivity. Qed.

(** ** The percentage *)

Lemma percentageAgrees_below_40 :
  forallb (λ t, forallb (λ c, percentageAgrees c t) (seq 0 (S t))) (seq 1 39) = true.
Proof. vm_compute. reflexivity. Qed.

Lemma percentage_exact_below_40 c t sc :
  0 < t < 40 → c ≤ t →
  percentage {| correct := c; total := t; score := sc |}
  = Num (inject_Z (exactPercentage c t)).
Proof.
  intros Ht Hc.
  pose proof percentageAgrees_below_40 as H.
  rewrite forallb_forall in H. specialize (H t).
  rewrite forallb_forall in H.
  assert (Hin : percentageAgrees c t = true).
  { apply H; apply in_seq; lia. }
  unfold percentageAgrees, percentage in *. simpl in *.
  destruct (Math_round _) as [| |[n d]]; try discriminate.
  cbn [Qnum Qden] in Hin. apply andb_true_iff in Hin as [Hn Hd].
  apply Z.eqb_eq in Hn. destruct d; try discriminate. by subst.
Qed.

Lemma percentage_defined c t sc :
  0 < t → ∃ z, percentage {| correct := c; total := t; score := sc |} = Num (inject_Z z).
Proof.
  intros Ht. unfold percentage. simpl.
  destruct t as [|t]; [lia|]. simpl. eauto.
Qed.

Lemma applyEvent_questions rnd w e :
  (step (app w) = exam ∨ step (app w) = results → questions (app w) ≠ []) →
  step (app (applyEvent rnd w e)) = exam
  ∨ step (app (applyEvent rnd w e)) = results →
  questions (app (applyEvent rnd w e)) ≠ [].
Proof.
  intros IH. destruct e as [file|n text|n out|c]; simpl.
  - case_bool_decide as Hs; [|done].
    destruct file as [f|]; simpl; [|done].
    destruct (String.eqb (type f) "application/pdf"); simpl; done.
  - destruct (tasks w !! n) as [[f|sent]|]; simpl; [|done..].
    destruct text as [text|]; simpl; [|done].
    intros [?|?]; discriminate.
  - destruct (tasks w !! n) as [[f|sent]|]; simpl; [done| |done].
    unfold generationSettled. simpl.
    destruct out as [m|[[|q qs]|]]; simpl;
      try (intros [?|?]; discriminate).
    destruct (randomize rnd (q :: qs) (calls w)) as [r k'] eqn:Hr.
    simpl. intros _ ->.
    pose proof (randomize_length rnd (q :: qs) (calls w)) as Hl.
    rewrite Hr in Hl. discriminate.
  - destruct c as [idx| | | |]; unfold click.
    + destruct (examRendered (app w)); [|done].
      destruct (currentQuestion (app w)) as [q|]; [|done].
      destruct (options q !! idx); done.
    + destruct (examRendered (app w)) eqn:Hr; [|done].
      apply examRendered_true in Hr as (He & Hlen & _).
      destruct (negb (nextDisabled (app w))); simpl; [|done].
      intros _. unfold nextQuestion.
      destruct (_ <? _)%Z; simpl; intros E; rewrite E in Hlen; simpl in Hlen; lia.
    + destruct (examRendered (app w)) eqn:Hr; [|done].
      apply examRendered_true in Hr as (He & Hlen & _).
      destruct (negb (prevDisabled (app w))); simpl; [|done].
      intros _. unfold prevQuestion.
      destruct (_ <? _); simpl; intros E; rewrite E in Hlen; simpl in Hlen; lia.
    + case_bool_decide as Hs; [|done].
      rewrite retakeCurrent_unfold. simpl. intros _ E.
      apply (f_equal length) in E. rewrite randomize_length in E.
      destruct (questions (app w)); [by apply IH; auto|discriminate].
    + case_bool_decide as Hs; [|done]. simpl. intros [?|?]; discriminate.
Qed.

(** In every world reached from the start, whatever the order of the
    events, an exam or its results are on screen only with questions. *)
Lemma reachable_questions rnd w :
  reachable rnd w →
  step (app w) = exam ∨ step (app w) = results → questions (app w) ≠ [].
Proof.
  induction 1 as [|w e _ IH].
  - intros [?|?]; discriminate.
  - destruct (mounted w) eqn:Hm.
    + destruct (runEvent_mounted rnd w e Hm) as (-> & _).
      by apply applyEvent_questions.
    + by destruct (runEvent_unmounted rnd w e Hm) as [-> _].
Qed.

(** C7, as the code has it. The percentage is
    [Math.round((correct / total) * 100)] in double arithmetic. With no
    questions it is [NaN], the value of [0 / 0]; with at least one question
    it is an integer; with 1 to 39 questions it is
    [round(100 * correct / length)], a tie going up. The results view is
    never reached with no questions, so the percentage it shows is never
    [NaN]. *)
Theorem percentage_rounds_or_NaN (state : AppState) :
  (questions state = [] → percentage (calculateResults state) = NaN)
  ∧ (0 < length (questions state) →
       ∃ z, percentage (calculateResults state) = Num (inject_Z z))
  ∧ (0 < length (questions state) < 40 →
       percentage (calculateResults state)
       = Num (inject_Z (exactPercentage (correct (calculateResults state))
                                        (length (questions state)))))
  ∧ (∀ rnd w r p, reachable rnd w → app w = state →
       resultsView state = Some (r, p) → questions state ≠ [] ∧ p ≠ NaN).
Proof.
  split_and!.
  - intros Hq. unfold calculateResults. rewrite Hq. reflexivity.
  - intros Hlen. by apply percentage_defined.
  - intros Hlen. pose proof (correct_le_total state) as Hle.
    unfold calculateResults in *. simpl in *.
    by apply percentage_exact_below_40.
  - intros rnd w r p Hreach <-.
    unfold resultsView. case_bool_decide as Hs; [|done].
    intros [= <- <-].
    assert (Hq : questions (app w) ≠ []) by (apply (reachable_questions rnd); auto).
    split; [done|].
    destruct (percentage_defined (correct (calculateResults (app w)))
                (length (questions (app w))) (score (calculateResults (app w))))
      as [z Hz].
    { destruct (questions (app w)); [done|simpl; lia]. }
    unfold calculateResults in *. simpl in *. rewrite Hz. discriminate.
Qed.

Lemma percentage_rounds_or_NaN_witness :
  let q (a : string) :=
    {| id := 1%Z; text := "t"; options := ["x"; "y"]; correctAnswer := a;
       explanation := None |} in
  let state :=
    {| step := results; questions := [q "x"; q "y"; q "x"];
       currentQuestionIndex := 2;
       userAnswers := <[2 := "x"]> (<[1 := "x"]> (<[0 := "x"]> ∅));
       isLoading := false; error := None |} in
  percentage (calculateResults state) = Num (inject_Z 67).
Proof.
  intros q state.
  destruct (percentage_rounds_or_NaN state) as (_ & _ & H & _).
  rewrite H; [reflexivity | simpl; lia].
Defined.

(** C7 as stated fails: a session with no questions has percentage [NaN],
    not 0. *)
Lemma percentage_empty_not_zero :
  let state :=
    {| step := results; questions := []; currentQuestionIndex := 0;
       userAnswers := ∅; isLoading := false; error := None |} in
  length (questions state) = 0
  ∧ percentage (calculateResults state) = NaN
  ∧ percentage (calculateResults state) ≠ Num 0.
Proof. repeat split. discriminate. Qed.

(** From 40 questions on, the double arithmetic of
    [(correct / total) * 100] can fall below a tie that the exact quotient
    reaches: 23 of 40 give 57, and [round(57.5)] is 58. *)
Example percentage_23_of_40 :
  percentage {| correct := 23; total := 40; score := 46 |} = Num (inject_Z 57)
  ∧ exactPercentage 23 40 = 58%Z.
Proof. split; vm_compute; reflexivity. Qed.


(** ** Further properties of the shuffle *)

(** X1. shuffleArray keeps the length of the array and calls Math.random
    once per element but the first: it reads the draws [k .. k + n - 2] and
    no other, so two sources that agree on these give the same result. *)
Theorem shuffleArray_draws_window {T} (rnd rnd' : nat -> nat) (a : list T) (k : nat) :
  (∀ m, k ≤ m < k + (length a - 1) → rnd m = rnd' m) →
  length (shuffleArray rnd a k).1 = length a
  ∧ (shuffleArray rnd a k).2 = k + (length a - 1)
  ∧ shuffleArray rnd' a k = shuffleArray rnd a k.
Proof.
  intros H. split_and!.
  - apply shuffle_loop_length.
  - apply shuffleArray_calls.
  - symmetry. by apply shuffle_loop_window.
Qed.

Lemma shuffleArray_draws_window_witness :
  length (shuffleArray (λ n, n) ["a"; "b"; "c"] 4).1 = 3
  ∧ (shuffleArray (λ n, n) ["a"; "b"; "c"] 4).2 = 6
  ∧ shuffleArray (λ n, if decide (n < 6) then n else 0) ["a"; "b"; "c"] 4
    = shuffleArray (λ n, n) ["a"; "b"; "c"] 4.
Proof.
  apply (shuffleArray_draws_window (λ n, n) (λ n, if decide (n < 6) then n else 0)
           ["a"; "b"; "c"] 4).
  intros m Hm. simpl in Hm. rewrite decide_True by lia. reflexivity.
Defined.

(** X2. shuffleArray moves positions without looking at the elements:
    shuffling the images of the elements under any function gives the images
    of the shuffled elements, with the same draws consumed. *)
Theorem shuffleArray_commutes_with_map {A B} (f : A → B) (rnd : nat -> nat)
    (a : list A) (k : nat) :
  shuffleArray rnd (f <$> a) k = (f <$> (shuffleArray rnd a k).1, (shuffleArray rnd a k).2).
Proof.
  apply injective_projections; simpl.
  - apply shuffleArray_fmap.
  - rewrite !shuffleArray_calls. by rewrite length_fmap.
Qed.

(** ** Further properties of randomize and retakeCurrent *)

Lemma sameUpToOptions_ids qs qs' :
  Forall2 sameUpToOptions qs qs' → id <$> qs' = id <$> qs.
Proof.
  induction 1 as [|q q' qs qs' (Hid & _) _ IH]; [done|].
  rewrite !fmap_cons. congruence.
Qed.

Lemma sameUpToOptions_answerable qs qs' :
  Forall2 sameUpToOptions qs qs' → Forall answerable qs → Forall answerable qs'.
Proof.
  induction 1 as [|q q' qs qs' (_ & _ & Hc & _ & Ho) _ IH]; [done|].
  intros Hall. apply Forall_cons in Hall as [Hq Hall].
  constructor; [|by apply IH].
  unfold answerable in *. by rewrite Hc, Ho.
Qed.

Lemma sameUpToOptions_option_counts qs qs' :
  Forall2 sameUpToOptions qs qs' →
  (λ q, length (options q)) <$> qs' = (λ q, length (options q)) <$> qs.
Proof.
  induction 1 as [|q q' qs qs' (_ & _ & _ & _ & Ho) _ IH]; [done|].
  rewrite !fmap_cons, (Permutation_length Ho). congruence.
Qed.

(** X3. randomize keeps the exam intact: the same number of questions,
    the same ids and the same numbers of options up to the order of the
    questions, and if every question had its correct answer among its
    options, every question still has. *)
Theorem randomize_keeps_questions (rnd : nat -> nat) (qs : list Question) (k : nat) :
  length (randomize rnd qs k).1 = length qs
  ∧ id <$> (randomize rnd qs k).1 ≡ₚ id <$> qs
  ∧ (λ q, length (options q)) <$> (randomize rnd qs k).1
    ≡ₚ (λ q, length (options q)) <$> qs
  ∧ (Forall answerable qs → Forall answerable (randomize rnd qs k).1).
Proof.
  destruct (randomize_same rnd qs k) as (qs' & Hp & Hf).
  split_and!.
  - apply randomize_length.
  - rewrite (sameUpToOptions_ids _ _ Hf). by rewrite Hp.
  - rewrite (sameUpToOptions_option_counts _ _ Hf). by rewrite Hp.
  - intros Hall. apply (sameUpToOptions_answerable qs'); [done|].
    by rewrite Hp.
Qed.

Lemma randomize_keeps_questions_witness :
  Forall answerable (randomize (λ n, n) [exampleQuestion 1; exampleQuestion 2] 0).1.
Proof.
  apply (randomize_keeps_questions (λ n, n) [exampleQuestion 1; exampleQuestion 2] 0).
  repeat constructor.
Defined.

Lemma shuffleOptions_draws rnd qs : ∀ k,
  (shuffleOptions rnd qs k).2 = k + optionDraws qs.
Proof.
  induction qs as [|q rest IH]; intros k; simpl; [unfold optionDraws; simpl; lia|].
  destruct (shuffleArray rnd (options q) k) as [opts k1] eqn:Ho.
  specialize (IH k1).
  destruct (shuffleOptions rnd rest k1) as [rest' k2]. simpl in *.
  pose proof (shuffleArray_calls rnd (options q) k) as Hc.
  rewrite Ho in Hc. simpl in Hc. subst.
  unfold optionDraws. simpl. lia.
Qed.

(** X4. randomize calls Math.random a number of times fixed by the sizes:
    one per question but the first, then one per option but the first of
    every question. *)
Theorem randomize_draws (rnd : nat -> nat) (qs : list Question) (k : nat) :
  (randomize rnd qs k).2 = k + (length qs - 1) + optionDraws qs.
Proof.
  unfold randomize.
  destruct (shuffleArray rnd qs k) as [shuffled k1] eqn:Hs.
  pose proof (shuffleArray_calls rnd qs k) as Hc.
  pose proof (shuffleArray_perm rnd qs k) as Hp.
  rewrite Hs in Hc, Hp. simpl in Hc, Hp.
  rewrite shuffleOptions_draws. unfold optionDraws. rewrite Hp. lia.
Qed.

Lemma forEachCount_unanswered state qs : ∀ idx c,
  userAnswers state = ∅ → forEachCount state qs idx c = c.
Proof.
  induction qs as [|q rest IH]; intros idx c H; simpl; [done|].
  unfold isCorrect. rewrite H, lookup_empty. simpl. by apply IH.
Qed.

(** X5. Right after a retake nothing is answered: the results computed on
    the new session are 0 correct and 0 points out of the same number of
    questions, and the Next control is disabled. *)
Theorem retakeCurrent_resets_score (rnd : nat -> nat) (state : AppState) (k : nat) :
  calculateResults (retakeCurrent rnd state k).1
  = {| correct := 0; total := length (questions state); score := 0 |}
  ∧ nextDisabled (retakeCurrent rnd state k).1 = true.
Proof.
  rewrite retakeCurrent_unfold. split.
  - unfold calculateResults. simpl.
    rewrite forEachCount_unanswered by done.
    by rewrite randomize_length.
  - reflexivity.
Qed.

Lemma calculateResults_counts_correct_aux state :
  correct (calculateResults state) = length (filter (λ b, b = true) (breakdown state))
  ∧ score (calculateResults state) = correct (calculateResults state) * 2.
Proof.
  split; [|done]. unfold calculateResults, breakdown. simpl.
  by rewrite forEachCount_filter.
Qed.

(** ** Further properties of answers and navigation *)

(** X6. A second selection at the same cursor replaces the first, and
    selecting the same option twice is the same as selecting it once; either
    way the cursor, the questions and the step stay. *)
Theorem selectAnswer_overwrites (a b : string) (state : AppState) :
  selectAnswer a (selectAnswer b state) = selectAnswer a state
  ∧ selectAnswer a (selectAnswer a state) = selectAnswer a state
  ∧ userAnswers (selectAnswer a (selectAnswer b state)) !! currentQuestionIndex state
    = Some a.
Proof.
  unfold selectAnswer. simpl. rewrite !insert_insert_eq.
  split_and!; try done. apply lookup_insert_eq.
Qed.

(** X7. Previous undoes Next and Next undoes Previous wherever both move:
    from a cursor before the last index, nextQuestion then prevQuestion gives
    the session back, and from a cursor after the first and inside the
    questions, prevQuestion then nextQuestion does. At the first index
    prevQuestion changes nothing. No answer is touched by either. *)
Theorem prev_next_round_trip (state : AppState) :
  (currentQuestionIndex state + 1 < length (questions state) →
     prevQuestion (nextQuestion state) = state)
  ∧ (0 < currentQuestionIndex state < length (questions state) →
       nextQuestion (prevQuestion state) = state)
  ∧ (currentQuestionIndex state = 0 → prevQuestion state = state)
  ∧ userAnswers (prevQuestion state) = userAnswers state
  ∧ userAnswers (nextQuestion state) = userAnswers state.
Proof.
  destruct state as [st qs c ans ld er]. split_and!.
  - intros H. rewrite nextQuestion_inner by done. simpl in *.
    unfold prevQuestion. simpl.
    destruct (Nat.ltb_spec 0 (c + 1)); [|lia].
    f_equal. lia.
  - intros H. simpl in *. unfold prevQuestion. simpl.
    destruct (Nat.ltb_spec 0 c); [|lia].
    rewrite nextQuestion_inner by (simpl; lia). simpl. f_equal. lia.
  - simpl. intros ->. reflexivity.
  - unfold prevQuestion. by destruct (_ <? _).
  - unfold nextQuestion. by destruct (_ <? _)%Z.
Qed.

Lemma prev_next_round_trip_witness :
  let state :=
    {| step := exam;
       questions := [exampleQuestion 1; exampleQuestion 2; exampleQuestion 3];
       currentQuestionIndex := 1;
       userAnswers := <[0 := "A"]> ∅; isLoading := false; error := None |} in
  prevQuestion (nextQuestion state) = state
  ∧ nextQuestion (prevQuestion state) = state.
Proof.
  intros state.
  destruct (prev_next_round_trip state) as (H1 & H2 & _).
  split; [apply H1 | apply H2]; simpl; lia.
Defined.

(** X8. While the exam view is on screen and the Next control is enabled,
    its label tells what the click does: it reads "Завершить тест" exactly
    when the click completes the exam, and "Следующий вопрос" exactly when
    the click moves the cursor on by one. *)
Theorem nextLabel_tells_the_click (rnd : nat -> nat) (state : AppState) (k : nat) :
  examRendered state = true →
  nextDisabled state = false →
  (nextLabel state = "Завершить тест"
     ↔ step (click rnd NextButton state k).1 = results)
  ∧ (nextLabel state = "Следующий вопрос"
       ↔ step (click rnd NextButton state k).1 = exam
         ∧ currentQuestionIndex (click rnd NextButton state k).1
           = currentQuestionIndex state + 1).
Proof.
  intros Hr Hd. unfold click. rewrite Hr, Hd. cbn [negb andb fst].
  apply examRendered_true in Hr as (He & _ & Hc).
  unfold nextLabel.
  destruct (Z.eqb_spec (Z.of_nat (currentQuestionIndex state))
              (Z.of_nat (length (questions state)) - 1)) as [E|E].
  - rewrite nextQuestion_last by lia. simpl.
    split; split; try done; try (intros [? _]; discriminate).
  - rewrite nextQuestion_inner by lia. simpl. rewrite He.
    split; split; try done; try (intros _; split; done).
Qed.

Lemma nextLabel_tells_the_click_witness :
  let state :=
    {| step := exam; questions := [exampleQuestion 1; exampleQuestion 2];
       currentQuestionIndex := 1;
       userAnswers := <[1 := "B"]> ∅; isLoading := false; error := None |} in
  nextLabel state = "Завершить тест"
  ∧ step (click (λ n, n) NextButton state 0).1 = results.
Proof.
  intros state.
  destruct (nextLabel_tells_the_click (λ n, n) state 0) as [[H _] _];
    [reflexivity..|].
  split; [reflexivity|]. apply H. reflexivity.
Defined.

(** ** Further properties of the scoring *)

Lemma exactPercentage_range c t :
  0 < t → c ≤ t → (0 ≤ exactPercentage c t ≤ 100)%Z.
Proof.
  intros Ht Hc. unfold exactPercentage. split.
  - apply Z.div_pos; lia.
  - apply Z.lt_succ_r. apply Z.div_lt_upper_bound; lia.
Qed.

(** X9. The results stay within the exam: never more correct answers than
    questions, never more than two points per question, and for 1 to 39
    questions a percentage that is an integer from 0 to 100. *)
Theorem results_within_bounds (state : AppState) :
  correct (calculateResults state) ≤ total (calculateResults state)
  ∧ score (calculateResults state) ≤ 2 * length (questions state)
  ∧ (0 < length (questions state) < 40 →
       ∃ z, percentage (calculateResults state) = Num (inject_Z z)
            ∧ (0 ≤ z ≤ 100)%Z).
Proof.
  pose proof (correct_le_total state) as Hle. split_and!.
  - done.
  - unfold calculateResults in *. simpl in *. lia.
  - intros Hlen. eexists. split.
    + unfold calculateResults in *. simpl in *.
      by apply percentage_exact_below_40.
    + apply exactPercentage_range; [lia|].
      unfold calculateResults in *. simpl in *. done.
Qed.

Lemma results_within_bounds_witness :
  let state :=
    {| step := results; questions := [exampleQuestion 1; exampleQuestion 2];
       currentQuestionIndex := 1;
       userAnswers := <[1 := "B"]> (<[0 := "A"]> ∅);
       isLoading := false; error := None |} in
  ∃ z, percentage (calculateResults state) = Num (inject_Z z) ∧ (0 ≤ z ≤ 100)%Z.
Proof.
  intros state.
  destruct (results_within_bounds state) as (_ & _ & H).
  apply H. simpl. lia.
Defined.

Lemma count_pointsLabel (marks : list bool) :
  length (filter (λ s, s = "+2") (pointsLabel <$> marks))
  = length (filter (λ b, b = true) marks).
Proof.
  induction marks as [|[] marks IH]; [done| |].
  - rewrite fmap_cons. rewrite !filter_cons_True by done. simpl. by rewrite IH.
  - rewrite fmap_cons. rewrite !filter_cons_False by done. done.
Qed.

(** X10. The breakdown and the total agree: there is one points label per
    question, and the score is two points for each item labelled "+2". *)
Theorem breakdown_adds_up_to_score (state : AppState) :
  length (breakdownPoints state) = length (questions state)
  ∧ score (calculateResults state)
    = 2 * length (filter (λ s, s = "+2") (breakdownPoints state))
  ∧ (∀ i q, questions state !! i = Some q →
       breakdownPoints state !! i
       = Some (if isCorrect state i q then "+2" else "0")).
Proof.
  unfold breakdownPoints. split_and!.
  - rewrite length_fmap. unfold breakdown. apply length_imap.
  - rewrite count_pointsLabel. unfold calculateResults, breakdown. simpl.
    rewrite forEachCount_filter. simpl. lia.
  - intros i q Hq. unfold breakdown.
    rewrite list_lookup_fmap, list_lookup_imap, Hq. done.
Qed.

Lemma forEachCount_agree s1 s2 qs : ∀ idx c,
  (∀ i, idx ≤ i < idx + length qs → userAnswers s1 !! i = userAnswers s2 !! i) →
  forEachCount s1 qs idx c = forEachCount s2 qs idx c.
Proof.
  induction qs as [|q rest IH]; intros idx c H; simpl; [done|].
  unfold isCorrect. rewrite (H idx) by (simpl; lia).
  apply IH. intros i Hi. apply H. simpl. lia.
Qed.

(** X11. Only the answers at the positions of the questions count: two
    sessions with the same questions whose answers agree on the positions
    [0 .. length - 1] have the same results and the same breakdown, whatever
    is recorded at other keys and whatever their step and cursor. *)
Theorem calculateResults_ignores_other_keys (s1 s2 : AppState) :
  questions s1 = questions s2 →
  (∀ i, i < length (questions s1) → userAnswers s1 !! i = userAnswers s2 !! i) →
  calculateResults s1 = calculateResults s2 ∧ breakdown s1 = breakdown s2.
Proof.
  intros Hq Ha. split.
  - unfold calculateResults. rewrite <- Hq.
    rewrite (forEachCount_agree s1 s2); [done|].
    intros i Hi. apply Ha. lia.
  - unfold breakdown. rewrite <- Hq. apply list_eq. intros i.
    rewrite !list_lookup_imap.
    destruct (questions s1 !! i) as [q|] eqn:Hi; [|done]. simpl.
    unfold isCorrect. rewrite Ha; [done|]. by eapply lookup_lt_Some.
Qed.

Lemma calculateResults_ignores_other_keys_witness :
  let s1 :=
    {| step := results; questions := [exampleQuestion 1];
       currentQuestionIndex := 0;
       userAnswers := <[5 := "B"]> (<[0 := "A"]> ∅);
       isLoading := false; error := None |} in
  let s2 :=
    {| step := exam; questions := [exampleQuestion 1];
       currentQuestionIndex := 0;
       userAnswers := <[0 := "A"]> ∅;
       isLoading := false; error := None |} in
  calculateResults s1 = calculateResults s2.
Proof.
  intros s1 s2.
  apply (calculateResults_ignores_other_keys s1 s2); [reflexivity|].
  intros i Hi. simpl in Hi. assert (i = 0) as -> by lia. reflexivity.
Defined.

Lemma count_true_insert (marks : list bool) : ∀ (i : nat) (b b' : bool),
  marks !! i = Some b →
  length (filter (λ x, x = true) (<[i := b']> marks)) + (if b then 1 else 0)
  = length (filter (λ x, x = true) marks) + (if b' then 1 else 0).
Proof.
  induction marks as [|m marks IH]; intros [|i] b b' H; simplify_eq/=.
  - rewrite !filter_cons. destruct b, b'; simpl;
      repeat case_decide; simpl; try done; lia.
  - rewrite !filter_cons. specialize (IH i b b' H).
    destruct m; repeat case_decide; simpl; try done; lia.
Qed.

Lemma breakdown_selectAnswer a state q :
  currentQuestion state = Some q →
  breakdown (selectAnswer a state)
  = <[currentQuestionIndex state := String.eqb a (correctAnswer q)]> (breakdown state).
Proof.
  intros Hq. unfold currentQuestion in Hq. unfold breakdown. simpl.
  apply list_eq. intros i.
  destruct (decide (i = currentQuestionIndex state)) as [->|Hne].
  - rewrite list_lookup_insert_eq
      by (rewrite length_imap; by eapply lookup_lt_Some).
    rewrite list_lookup_imap, Hq. simpl. unfold isCorrect. simpl.
    by rewrite lookup_insert_eq.
  - rewrite list_lookup_insert_ne by done.
    rewrite !list_lookup_imap. destruct (questions state !! i); [|done].
    simpl. unfold isCorrect. simpl. by rewrite lookup_insert_ne.
Qed.

(** X12. One selection moves the count of correct answers by at most one,
    and only through the current question: the new count, plus one if the
    current question was marked correct before, is the old count, plus one if
    the selected string is the current question's correct answer. *)
Theorem selectAnswer_changes_count_by_current (a : string) (state : AppState)
    (q : Question) :
  currentQuestion state = Some q →
  correct (calculateResults (selectAnswer a state))
  + (if isCorrect state (currentQuestionIndex state) q then 1 else 0)
  = correct (calculateResults state)
    + (if String.eqb a (correctAnswer q) then 1 else 0).
Proof.
  intros Hq.
  destruct (calculateResults_counts_correct_aux (selectAnswer a state)) as [-> _].
  destruct (calculateResults_counts_correct_aux state) as [-> _].
  rewrite (breakdown_selectAnswer a state q Hq).
  apply count_true_insert.
  unfold breakdown. rewrite list_lookup_imap.
  unfold currentQuestion in Hq. by rewrite Hq.
Qed.

(** ** What quiet runs keep of the session *)

Lemma reachableQuiet_examEvents :
  reachableQuiet (λ n, n) (run (λ n, n) initialWorld examEvents).
Proof.
  apply reachableQuiet_run; [apply reachable_initial|].
  simpl. repeat split.
Qed.

Lemma reachableQuiet_resultsEvents :
  reachableQuiet (λ n, n) (run (λ n, n) initialWorld resultsEvents).
Proof.
  apply reachableQuiet_run; [apply reachable_initial|].
  simpl. repeat split.
Qed.

(** X13. In a quiet run the exam view can always be drawn: whenever the
    step is exam the cursor is inside the questions, so the question at the
    cursor exists, and no call is in flight. No render throws, so the
    component stays mounted throughout. *)
Theorem quiet_exam_always_renders (rnd : nat -> nat) (w : World) :
  reachableQuiet rnd w →
  step (app w) = exam →
  examRendered (app w) = true
  ∧ currentQuestionIndex (app w) < length (questions (app w))
  ∧ tasks w = []
  ∧ renderThrows (app w) = false
  ∧ mounted w = true.
Proof.
  intros Hr Hs. apply reachableQuiet_sessionInvariant in Hr as ([Ht _] & Ha & Hm).
  pose proof (renderThrows_appInvariant _ Ha) as Hrender.
  destruct Ha as (_ & _ & _ & Hex & _). destruct (Hex Hs) as [Hlt _].
  split_and!; [|done| |done|done].
  - unfold examRendered, currentQuestion.
    rewrite !andb_true_iff, !bool_decide_eq_true.
    split_and!; [done|lia|]. by apply lookup_lt_is_Some_2.
  - destruct (tasks w) as [|[f|sent] [|t ts]]; try done; congruence.
Qed.

Lemma quiet_exam_always_renders_witness :
  examRendered (app (run (λ n, n) initialWorld examEvents)) = true.
Proof.
  apply (quiet_exam_always_renders (λ n, n) (run (λ n, n) initialWorld examEvents)).
  - apply reachableQuiet_examEvents.
  - reflexivity.
Defined.

(** X14. In a quiet run every recorded answer belongs to the exam on
    screen: its key is the position of a question and its value is one of
    that question's options. *)
Theorem quiet_answers_are_options (rnd : nat -> nat) (w : World) (i : nat) (a : string) :
  reachableQuiet rnd w →
  userAnswers (app w) !! i = Some a →
  i < length (questions (app w))
  ∧ ∃ q, questions (app w) !! i = Some q ∧ a ∈ options q.
Proof.
  intros Hr Hi. apply reachableQuiet_sessionInvariant in Hr as (_ & Ha & _).
  destruct Ha as (_ & _ & Hv & _). destruct (Hv i a Hi) as (q & Hq & Ho).
  split; [by eapply lookup_lt_Some|eauto].
Qed.

Lemma quiet_answers_are_options_witness :
  ∃ q, questions (app (run (λ n, n) initialWorld resultsEvents)) !! 1 = Some q
       ∧ "A" ∈ options q.
Proof.
  apply (quiet_answers_are_options (λ n, n)
           (run (λ n, n) initialWorld resultsEvents) 1 "A").
  - apply reachableQuiet_resultsEvents.
  - reflexivity.
Defined.

(** X15. In a quiet run the results are reached only with the whole exam
    answered: the cursor is at the last question, and every question has a
    recorded answer that is non-empty and one of its options, so the
    breakdown never shows the unanswered marker. *)
Theorem quiet_results_all_answered (rnd : nat -> nat) (w : World) :
  reachableQuiet rnd w →
  step (app w) = results →
  currentQuestionIndex (app w) + 1 = length (questions (app w))
  ∧ (∀ i q, questions (app w) !! i = Some q →
       ∃ a, userAnswers (app w) !! i = Some a ∧ a ≠ "" ∧ a ∈ options q
            ∧ shownAnswer (userAnswers (app w) !! i) = a).
Proof.
  intros Hr Hs. apply reachableQuiet_sessionInvariant in Hr as (_ & Ha & _).
  destruct Ha as (_ & _ & Hv & _ & Hres). destruct (Hres Hs) as [Hlen Hall].
  split; [done|]. intros i q Hq.
  destruct (truthy_true _ (Hall i (lookup_lt_Some _ _ _ Hq))) as (a & Hi & Hne).
  exists a. destruct (Hv i a Hi) as (q' & Hq' & Ho).
  rewrite Hi. split_and!; try done.
  - congruence.
  - simpl. by rewrite (proj2 (String.eqb_neq a "") Hne).
Qed.

Lemma quiet_results_all_answered_witness :
  currentQuestionIndex (app (run (λ n, n) initialWorld resultsEvents)) + 1
  = length (questions (app (run (λ n, n) initialWorld resultsEvents))).
Proof.
  apply (quiet_results_all_answered (λ n, n)
           (run (λ n, n) initialWorld resultsEvents)).
  - apply reachableQuiet_resultsEvents.
  - reflexivity.
Defined.

(** X16. In a quiet run the loading flag is up exactly during parsing,
    parsing lasts exactly while a generation call is in flight, and an error
    message is held in the upload step only. *)
Theorem quiet_loading_and_error (rnd : nat -> nat) (w : World) :
  reachableQuiet rnd w →
  (isLoading (app w) = true ↔ step (app w) = parsing)
  ∧ (step (app w) = parsing ↔ ∃ sent, tasks w = [Generating sent])
  ∧ (step (app w) ≠ upload → error (app w) = None).
Proof.
  intros Hr. apply reachableQuiet_sessionInvariant in Hr as ([Ht _] & Ha & _).
  destruct Ha as (Hl & He & _). split_and!; [| |done].
  - rewrite Hl. apply bool_decide_eq_true.
  - destruct (tasks w) as [|[f|sent] [|t ts]]; try done.
    + split; [done|]. by intros [? ?].
    + split; [congruence|]. intros [? ?]. discriminate.
    + split; eauto.
Qed.

Lemma quiet_loading_and_error_witness :
  error (app (run (λ n, n) initialWorld examEvents)) = None.
Proof.
  apply (quiet_loading_and_error (λ n, n) (run (λ n, n) initialWorld examEvents)).
  - apply reachableQuiet_examEvents.
  - discriminate.
Defined.

(** X17. In a quiet run a successful generation starts a clean exam: the
    step is exam, the cursor is 0, no answer is recorded, no error is held,
    the loading flag is down, no call is left in flight, and the questions
    are the generated ones randomized. *)
Theorem quiet_exam_starts_clean (rnd : nat -> nat) (w : World) (n : nat)
    (sent : list N) (q : Question) (qs : list Question) :
  reachableQuiet rnd w →
  tasks w !! n = Some (Generating sent) →
  app (runEvent rnd w (Generated n (GenData (Some (q :: qs)))))
  = {| step := exam;
       questions := (randomize rnd (q :: qs) (calls w)).1;
       currentQuestionIndex := 0;
       userAnswers := ∅;
       isLoading := false;
       error := None |}
  ∧ tasks (runEvent rnd w (Generated n (GenData (Some (q :: qs))))) = [].
Proof.
  intros Hr Ht. apply reachableQuiet_sessionInvariant in Hr as Hinv.
  rewrite (runEvent_quiet rnd w (Generated n (GenData (Some (q :: qs)))) Hinv I).
  destruct Hinv as (Hq & Ha & _).
  destruct (quiet_single_task w n _ Hq Ht) as [Htasks ->].
  rewrite (applyEvent_generated rnd w 0 sent _ Ht).
  rewrite generateQuestions_settle_success. simpl.
  destruct Hq as [Hstep Hempty]. rewrite Htasks in Hstep |- *.
  destruct (Hempty (or_intror Hstep)) as (_ & -> & ->).
  destruct Ha as (_ & He & _). rewrite He by congruence. done.
Qed.

Lemma quiet_exam_starts_clean_witness :
  let w :=
    run (λ n, n) initialWorld [Upload (Some fileA); Extracted 0 (Some textA)] in
  userAnswers (app (runEvent (λ n, n) w (Generated 0 answerA))) = ∅
  ∧ tasks (runEvent (λ n, n) w (Generated 0 answerA)) = [].
Proof.
  intros w.
  destruct (quiet_exam_starts_clean (λ n, n) w 0 textA
              (exampleQuestion 1) [exampleQuestion 2]) as [H1 H2].
  - apply reachableQuiet_run; [apply reachable_initial|]. simpl. repeat split.
  - reflexivity.
  - split; [|exact H2]. unfold answerA. rewrite H1. reflexivity.
Defined.

(** ** What every run keeps *)

(** X18. Whatever the order of the events, overlapping attempts included,
    an exam or its results are on screen only with at least one question. *)
Theorem exam_and_results_have_questions (rnd : nat -> nat) (events : list Event) :
  step (app (run rnd initialWorld events)) = exam
  ∨ step (app (run rnd initialWorld events)) = results →
  0 < length (questions (app (run rnd initialWorld events))).
Proof.
  intros Hs.
  pose proof (reachable_questions rnd _
                (reachable_run rnd events _ (reachable_start rnd)) Hs) as H.
  destruct (questions (app (run rnd initialWorld events))); [done|simpl; lia].
Qed.

Lemma exam_and_results_have_questions_witness :
  0 < length (questions (app (run (λ n, n) initialWorld resultsEvents))).
Proof.
  apply (exam_and_results_have_questions (λ n, n) resultsEvents).
  right. reflexivity.
Defined.

Lemma runEvent_without_pdf rnd w e :
  choosesPDF e = false →
  mounted w = true →
  tasks w = [] → step (app w) = upload → questions (app w) = [] →
  mounted (runEvent rnd w e) = true
  ∧ tasks (runEvent rnd w e) = []
  ∧ step (app (runEvent rnd w e)) = upload
  ∧ questions (app (runEvent rnd w e)) = [].
Proof.
  intros He Hm Ht Hs Hq.
  assert (H : tasks (applyEvent rnd w e) = []
              ∧ step (app (applyEvent rnd w e)) = upload
              ∧ questions (app (applyEvent rnd w e)) = []).
  { destruct e as [file|n text|n out|c]; simpl in *.
    - rewrite bool_decide_eq_true_2 by done.
      destruct file as [f|]; simpl in *; [|done]. by rewrite He.
    - by rewrite Ht, lookup_nil.
    - by rewrite Ht, lookup_nil.
    - assert (Hc : click rnd c (app w) (calls w) = (app w, calls w)).
      { destruct c; unfold click;
          rewrite ?examRendered_false by congruence;
          rewrite ?bool_decide_eq_false_2 by congruence; done. }
      by rewrite Hc. }
  destruct H as (H1 & H2 & H3).
  destruct (runEvent_mounted rnd w e Hm) as (-> & -> & _ & ->).
  split_and!; try done.
  apply negb_true_iff, renderThrows_in_range. congruence.
Qed.

(** X19. Only a PDF can start anything: in a run where every chosen file
    is missing or is not of type application/pdf, no call is ever in flight
    and the session stays in the upload step without questions. *)
Theorem without_pdf_nothing_starts (rnd : nat -> nat) (events : list Event) :
  forallb (λ e, negb (choosesPDF e)) events = true →
  tasks (run rnd initialWorld events) = []
  ∧ step (app (run rnd initialWorld events)) = upload
  ∧ questions (app (run rnd initialWorld events)) = [].
Proof.
  assert (H : ∀ w, forallb (λ e, negb (choosesPDF e)) events = true →
            mounted w = true →
            tasks w = [] → step (app w) = upload → questions (app w) = [] →
            tasks (run rnd w events) = []
            ∧ step (app (run rnd w events)) = upload
            ∧ questions (app (run rnd w events)) = []).
  { induction events as [|e rest IH]; intros w Hall Hm Ht Hs Hq; [done|].
    simpl in Hall. apply andb_true_iff in Hall as [He Hall].
    apply negb_true_iff in He.
    destruct (runEvent_without_pdf rnd w e He Hm Ht Hs Hq) as (? & ? & ? & ?).
    by apply IH. }
  intros Hall. by apply H.
Qed.

Lemma without_pdf_nothing_starts_witness :
  let events :=
    [Upload (Some {| name := "notes.txt"; type := "text/plain" |});
     Upload None; Click NextButton; Generated 0 answerA] in
  step (app (run (λ n, n) initialWorld events)) = upload
  ∧ error (app (run (λ n, n) initialWorld events))
    = Some "Пожалуйста, загрузите только PDF-файл.".
Proof.
  intros events.
  destruct (without_pdf_nothing_starts (λ n, n) events) as (_ & H & _);
    [reflexivity|].
  split; [exact H|reflexivity].
Defined.

(** ** Text extraction and the text sent to the generator *)

Lemma append_cons (x : Ascii.ascii) (a b : string) : String x a +:+ b = String x (a +:+ b).
Proof. reflexivity. Qed.

Lemma append_assoc (a b c : string) : (a +:+ b) +:+ c = a +:+ (b +:+ c).
Proof. induction a as [|x a IH]; [done|]. by rewrite !append_cons, IH. Qed.

Lemma append_nil_r (a : string) : a +:+ "" = a.
Proof. induction a as [|x a IH]; [done|]. by rewrite append_cons, IH. Qed.

Lemma length_append (a b : string) :
  String.length (a +:+ b) = String.length a + String.length b.
Proof. induction a as [|x a IH]; [done|]. rewrite append_cons. simpl. by rewrite IH. Qed.

Lemma extractLoop_acc pages : ∀ i fullText,
  extractLoop i pages fullText = fullText +:+ extractLoop i pages "".
Proof.
  induction pages as [|items rest IH]; intros i fullText; simpl.
  - by rewrite append_nil_r.
  - rewrite (IH (S i) (fullText +:+ _)), (IH (S i) ("" +:+ _)).
    by rewrite append_assoc.
Qed.

Lemma extractLoop_app ps1 : ∀ ps2 i fullText,
  extractLoop i (ps1 ++ ps2) fullText
  = extractLoop (i + length ps1) ps2 (extractLoop i ps1 fullText).
Proof.
  induction ps1 as [|items rest IH]; intros ps2 i fullText; simpl.
  - by rewrite Nat.add_0_r.
  - rewrite IH. f_equal. lia.
Qed.

Lemma extractLoop_sections pages : ∀ i,
  extractLoop i pages ""
  = foldr String.append "" (imap (λ j items, pageSection (i + j) items) pages).
Proof.
  induction pages as [|items rest IH]; intros i; [done|].
  cbn [extractLoop imap foldr]. rewrite extractLoop_acc, IH.
  rewrite Nat.add_0_r. f_equal.
  f_equal. apply imap_ext. intros j x _. simpl. f_equal. lia.
Qed.

Lemma pageSection_nonempty i items : 0 < String.length (pageSection i items).
Proof. unfold pageSection. rewrite length_append. simpl. lia. Qed.

(** X20. extractTextFromPDF writes one section per page, in the order of
    the pages, each under a header with the page's number counted from 1. A
    document with no page gives the empty text and any other a non-empty
    one, and the text of a document is the text of its first pages followed
    by the sections of the rest, numbered on from there. *)
Theorem extractTextFromPDF_sections (pages more : list (list string)) :
  extractTextFromPDF pages
  = foldr String.append "" (imap (λ j items, pageSection (S j) items) pages)
  ∧ extractTextFromPDF (pages ++ more)
    = extractTextFromPDF pages +:+ extractLoop (S (length pages)) more ""
  ∧ (pages = [] ↔ extractTextFromPDF pages = "").
Proof.
  unfold extractTextFromPDF. split_and!.
  - apply extractLoop_sections.
  - rewrite extractLoop_app. apply extractLoop_acc.
  - split; [by intros ->|].
    destruct pages as [|items rest]; [done|]. intros H.
    apply (f_equal String.length) in H. simpl in H.
    rewrite extractLoop_acc, length_append in H.
    pose proof (pageSection_nonempty 1 items). simpl in *. lia.
Qed.

Example extractTextFromPDF_example :
  extractTextFromPDF [["Q1"; "A"; "B"]; []]
  = "--- Страница 1 ---" +:+ newline +:+ "Q1 A B" +:+ newline +:+ newline
    +:+ "--- Страница 2 ---" +:+ newline +:+ newline +:+ newline.
Proof. vm_compute. reflexivity. Qed.

(** X21. What goes to the generator is the start of the extracted text,
    never more than 30000 UTF-16 code units of it and all of it when it is
    that short: a settled extraction on the mounted component sets the step
    to parsing and puts one generation call in flight, for that capped
    text. *)
Theorem generator_text_is_capped (rnd : nat -> nat) (w : World) (n : nat)
    (f : File) (text : list N) :
  tasks w !! n = Some (Extracting f) →
  mounted w = true →
  ∃ sent rest,
    tasks (runEvent rnd w (Extracted n (Some text)))
    = delete n (tasks w) ++ [Generating sent]
    ∧ step (app (runEvent rnd w (Extracted n (Some text)))) = parsing
    ∧ text = sent ++ rest
    ∧ (Z.of_nat (length sent) ≤ 30000)%Z
    ∧ ((Z.of_nat (length text) ≤ 30000)%Z → sent = text).
Proof.
  intros Ht Hm.
  exists (take textCap text), (drop textCap text).
  destruct (runEvent_mounted rnd w (Extracted n (Some text)) Hm) as (-> & -> & _).
  unfold applyEvent. rewrite Ht. simpl.
  assert (Hcap : Z.of_nat textCap = 30000%Z) by (unfold textCap; lia).
  split_and!; try done.
  - by rewrite take_drop.
  - rewrite length_take. lia.
  - intros Hshort. apply take_ge. lia.
Qed.

Lemma generator_text_is_capped_witness :
  ∃ sent rest,
    tasks (runEvent (λ n, n) (run (λ n, n) initialWorld [Upload (Some fileA)])
             (Extracted 0 (Some textA)))
    = [Generating sent]
    ∧ textA = sent ++ rest.
Proof.
  destruct (generator_text_is_capped (λ n, n)
              (run (λ n, n) initialWorld [Upload (Some fileA)]) 0 fileA textA)
    as (sent & rest & H1 & _ & H3 & _).
  - reflexivity.
  - reflexivity.
  - exists sent, rest. split; [exact H1|exact H3].
Defined.

Lemma selectAnswer_changes_count_by_current_witness :
  let state :=
    {| step := exam; questions := [exampleQuestion 1; exampleQuestion 2];
       currentQuestionIndex := 1;
       userAnswers := <[1 := "B"]> (<[0 := "A"]> ∅);
       isLoading := false; error := None |} in
  correct (calculateResults state) = 1
  ∧ correct (calculateResults (selectAnswer "A" state)) = 2.
Proof.
  intros state. split; [reflexivity|].
  pose proof (selectAnswer_changes_count_by_current "A" state (exampleQuestion 2)
                eq_refl) as H.
  vm_compute in H |- *. lia.
Defined.

Lemma breakdown_adds_up_to_score_witness :
  let state :=
    {| step := results; questions := [exampleQuestion 1; exampleQuestion 2];
       currentQuestionIndex := 1;
       userAnswers := <[1 := "B"]> (<[0 := "A"]> ∅);
       isLoading := false; error := None |} in
  breakdownPoints state !! 0 = Some "+2"
  ∧ breakdownPoints state !! 1 = Some "0".
Proof.
  intros state.
  destruct (breakdown_adds_up_to_score state) as (_ & _ & H).
  split.
  - apply (H 0 (exampleQuestion 1)). reflexivity.
  - apply (H 1 (exampleQuestion 2)). reflexivity.
Defined.
